(** * cmdr: command templates, rendering and the process runner

    A shallow embedding of [cmd.go] (package [cmdr]) and the proofs of
    the properties its specification states.

    Go strings are byte sequences; they are modelled as lists of
    [ascii].  Go's [int] results ([strings.Index]) are [Z], with [-1]
    for "not found".  Calls into the operating system (environment,
    glob, process creation, pipes) are the fields of a record that
    the functions take as an argument.  A send on the result channel
    is an entry in the list of the values sent; the channel is taken
    to have room, so that no send blocks. *)

From Stdlib Require Import Ascii String.
From Stdlib Require Import List ZArith Lia Bool Arith.
Import ListNotations.

Local Open Scope char_scope.
Local Open Scope list_scope.
Local Open Scope Z_scope.

(** ** Go strings *)

Definition gostring : Type := list ascii.

(** A string literal of the source. *)
Definition str (s : string) : gostring := list_ascii_of_string s.

(** [strings.HasPrefix]. *)
Fixpoint HasPrefix (s prefix : gostring) {struct prefix} : bool :=
  match prefix, s with
  | [], _ => true
  | _ :: _, [] => false
  | p :: prefix', c :: s' => Ascii.eqb p c && HasPrefix s' prefix'
  end.

Fixpoint index_from (i : Z) (s substr : gostring) : Z :=
  if HasPrefix s substr then i
  else match s with
       | [] => -1
       | _ :: s' => index_from (i + 1) s' substr
       end.

(** [strings.Index]: the index of the first instance of [substr] in
    [s], or [-1]. *)
Definition Index (s substr : gostring) : Z := index_from 0 s substr.

(** Slice expressions [s[:hi]], [s[lo:]] and [s[lo:hi]].  Go panics
    when the bounds are out of range; [optional] only slices at
    indices [0 <= start < end < len(text)] returned by [Index]. *)
Definition slice_to (s : gostring) (hi : Z) : gostring :=
  firstn (Z.to_nat hi) s.
Definition slice_from (s : gostring) (lo : Z) : gostring :=
  skipn (Z.to_nat lo) s.
Definition slice (s : gostring) (lo hi : Z) : gostring :=
  firstn (Z.to_nat (hi - lo)) (skipn (Z.to_nat lo) s).

(** The scan of [strings.Replace] for a non-empty [old]: [skip] counts
    the bytes of a replaced instance that are still to be passed
    over. *)
Fixpoint replace_scan (skip : nat) (s old new : gostring) : gostring :=
  match s with
  | [] => []
  | c :: s' =>
      match skip with
      | S k => replace_scan k s' old new
      | O =>
          if HasPrefix s old
          then new ++ replace_scan (length old - 1) s' old new
          else c :: replace_scan 0 s' old new
      end
  end.

(** [strings.Replace(s, old, new, -1)]: every non-overlapping instance
    of [old], from the left, replaced by [new].  (The source always
    passes [-1]: no limit.)  With an empty [old] Go inserts [new] at
    the beginning and after each character. *)
Definition Replace (s old new : gostring) : gostring :=
  match old with
  | [] => new ++ flat_map (fun c => c :: new) s
  | _ :: _ => replace_scan 0 s old new
  end.

(** [strings.Join]. *)
Fixpoint Join (elems : list gostring) (sep : gostring) : gostring :=
  match elems with
  | [] => []
  | [x] => x
  | x :: rest => x ++ sep ++ Join rest sep
  end.

(** The white space of [strings.Fields] on ASCII text:
    ['\t', '\n', '\v', '\f', '\r', ' '].  (On text with bytes above
    127 Go also cuts at the Unicode spaces; they are not modelled.) *)
Definition isSpace (c : ascii) : bool :=
  match c with
  | "009" | "010" | "011" | "012" | "013" | " " => true
  | _ => false
  end.

Fixpoint fields_scan (cur : gostring) (s : gostring) : list gostring :=
  match s with
  | [] => match cur with [] => [] | _ :: _ => [rev cur] end
  | c :: s' =>
      if isSpace c
      then match cur with
           | [] => fields_scan [] s'
           | _ :: _ => rev cur :: fields_scan [] s'
           end
      else fields_scan (c :: cur) s'
  end.

(** [strings.Fields]: the maximal runs of non-space characters.  ([cur]
    above is the current run, last character first.) *)
Definition Fields (s : gostring) : list gostring := fields_scan [] s.

(** ** The two regular expressions *)

Definition isUpper (c : ascii) : bool :=
  let n := nat_of_ascii c in (65 <=? n)%nat && (n <=? 90)%nat.

(** [\w] of Go's regexp: [[0-9A-Za-z_]]. *)
Definition isWord (c : ascii) : bool :=
  let n := nat_of_ascii c in
  ((48 <=? n)%nat && (n <=? 57)%nat)
  || ((65 <=? n)%nat && (n <=? 90)%nat)
  || ((97 <=? n)%nat && (n <=? 122)%nat)
  || Ascii.eqb c "_".

(** The class [[\w.-]] of [globs]. *)
Definition isGlobChar (c : ascii) : bool :=
  isWord c || Ascii.eqb c "." || Ascii.eqb c "-".

(** [pmatch = {{[A-Z]+}}] anchored at the head of [s]: after the two
    opening braces, [upper_run seen] passes the upper-case letters
    ([seen] once there was one) and then wants the closing braces. *)
Fixpoint upper_run (seen : bool) (s : gostring) : bool :=
  match s with
  | [] => false
  | c :: s' =>
      if isUpper c then upper_run true s'
      else seen && HasPrefix s (str "}}")
  end.

Definition pmatch_here (s : gostring) : bool :=
  match s with
  | a :: b :: s' => Ascii.eqb a "{" && Ascii.eqb b "{" && upper_run false s'
  | _ => false
  end.

(** [pmatch.MatchString]: some substring of [s] matches. *)
Fixpoint pmatch_MatchString (s : gostring) : bool :=
  pmatch_here s
  || match s with
     | [] => false
     | _ :: s' => pmatch_MatchString s'
     end.

(** [globs = [\w.-]*\*[\w.-]*].  The scanner is either before the
    star of a candidate match, holding the run of class characters
    read so far, or after it, holding the match read so far (both
    last character first). *)
Inductive glob_state : Type :=
| BeforeStar (run : gostring)
| AfterStar (m : gostring).

Fixpoint globs_scan (st : glob_state) (s : gostring) : list gostring :=
  match s with
  | [] =>
      match st with
      | BeforeStar _ => []
      | AfterStar m => [rev m]
      end
  | c :: s' =>
      match st with
      | BeforeStar run =>
          if Ascii.eqb c "*" then globs_scan (AfterStar (c :: run)) s'
          else if isGlobChar c then globs_scan (BeforeStar (c :: run)) s'
          else globs_scan (BeforeStar []) s'
      | AfterStar m =>
          if isGlobChar c then globs_scan (AfterStar (c :: m)) s'
          else if Ascii.eqb c "*"
               then rev m :: globs_scan (AfterStar [c]) s'
               else rev m :: globs_scan (BeforeStar []) s'
      end
  end.

(** [globs.FindAllString(text, -1)]: the successive non-overlapping
    leftmost matches. *)
Definition globs_FindAllString (text : gostring) : list gostring :=
  globs_scan (BeforeStar []) text.

(** ** Errors *)

Inductive error : Type :=
| ErrIncomplete      (* "missing required parameter" *)
| ErrUserDenied      (* "user denied runtime access" *)
| ErrSyntaxError     (* "invalid command syntax" *)
| ErrNoSuchFile      (* "no such file or directory" *)
| ErrMustBeRoot      (* "must be run as root" *)
| ErrExternal (msg : string). (* an error value made outside the package *)

(** ** The environment and the filesystem *)

Record OS : Type := {
  Getenv : gostring -> gostring;
  (* filepath.Glob: (matches, err) *)
  Glob : gostring -> list gostring * option error
}.

(** [os.Expand]'s helpers. *)
Definition isShellSpecialVar (c : ascii) : bool :=
  match c with
  | "*" | "#" | "$" | "@" | "!" | "?" | "-"
  | "0" | "1" | "2" | "3" | "4" | "5" | "6" | "7" | "8" | "9" => true
  | _ => false
  end.

Definition isAlphaNum (c : ascii) : bool := isWord c.

(** The index of the first ["}"] of [s] at or after position [i]. *)
Fixpoint closing_brace (i : nat) (s : gostring) : option nat :=
  match s with
  | [] => None
  | c :: s' => if Ascii.eqb c "}" then Some i else closing_brace (S i) s'
  end.

Fixpoint alnum_run (s : gostring) : gostring :=
  match s with
  | [] => []
  | c :: s' => if isAlphaNum c then c :: alnum_run s' else []
  end.

(** The first case of [getShellName]: [${c}] for a special [c]. *)
Definition special_braced (rest : gostring) : bool :=
  match rest with
  | c :: d :: _ => isShellSpecialVar c && Ascii.eqb d "}"
  | _ => false
  end.

(** [getShellName]: the name that begins [s] (the text after a ["$"])
    and how many bytes it takes. *)
Definition getShellName (s : gostring) : gostring * nat :=
  match s with
  | [] => ([], 0%nat)
  | "{" :: rest =>
      if special_braced rest then (firstn 1 rest, 3%nat)
      else
        (* scan to the closing brace *)
        match closing_brace 1 rest with
        | Some i =>
            if (i =? 1)%nat then ([], 2%nat) (* bad syntax; eat "${}" *)
            else (firstn (i - 1) rest, S i)
        | None => ([], 1%nat) (* bad syntax; eat "${" *)
        end
  | c :: _ =>
      if isShellSpecialVar c then ([c], 1%nat)
      else let name := alnum_run s in (name, length name)
  end.

Fixpoint expand_scan (mapping : gostring -> gostring) (skip : nat)
    (s : gostring) : gostring :=
  match s with
  | [] => []
  | c :: s' =>
      match skip with
      | S k => expand_scan mapping k s'
      | O =>
          match s' with
          | _ :: _ =>
              if Ascii.eqb c "$"
              then
                let (name, w) := getShellName s' in
                match name, w with
                | [], O => c :: expand_scan mapping 0 s'
                | [], S _ => expand_scan mapping w s'
                | _ :: _, _ => mapping name ++ expand_scan mapping w s'
                end
              else c :: expand_scan mapping 0 s'
          | [] => [c]
          end
      end
  end.

(** [os.ExpandEnv]: [${var}] and [$var] replaced from the
    environment, as [os.Expand] does it.  (The proofs below use only
    that a text without ["$"] is returned as it is.) *)
Definition ExpandEnv (os : OS) (s : gostring) : gostring :=
  expand_scan (Getenv os) 0 s.

(** ** Templates *)

(** [type Param [2]string]: name and value. *)
Definition Param : Type := (gostring * gostring)%type.

Record Command : Type := {
  Path : gostring;
  Params : gostring;
  Dir : gostring;
  User : gostring;
  Async : bool
}.

(** The bracket loop of [optional].  Every turn removes at least the
    two brackets, so [fuel = len(text)] turns are never used up;
    [None] is "out of fuel". *)
Fixpoint optional_brackets (fuel : nat) (text : gostring)
    : option (gostring * option error) :=
  let start := Index text (str "[") in
  if start <? 0 then Some (text, None)
  else
    let end_ := Index text (str "]") in
    if (end_ <? 0) || (end_ <? start) then Some (text, Some ErrSyntaxError)
    else
      match fuel with
      | O => None
      | S fuel' =>
          if pmatch_MatchString text
          then (* remove unused args *)
            optional_brackets fuel'
              (slice_to text start ++ slice_from text (end_ + 1))
          else (* remove opt brackets *)
            optional_brackets fuel'
              (slice_to text start ++ slice text (start + 1) end_
               ++ slice_from text (end_ + 1))
      end.

(** The [range] over the glob matches. *)
Fixpoint glob_loop (os : OS) (gs : list gostring) (text : gostring)
    : gostring * option error :=
  match gs with
  | [] => (text, None)
  | g :: gs' =>
      let (files, err) := Glob os g in
      match err with
      | Some e => (text, Some e)
      | None =>
          if (length files =? 0)%nat then (text, Some ErrNoSuchFile)
          else glob_loop os gs' (Replace text g (Join files (str " ")))
      end
  end.

(** What follows the bracket loop. *)
Definition optional_tail (os : OS) (text : gostring)
    : gostring * option error :=
  if pmatch_MatchString text then (text, Some ErrIncomplete)
  else
    let text := ExpandEnv os text in
    glob_loop os (globs_FindAllString text) text.

(** [optional]: remove 'optional' syntax and unused optional
    parameters. *)
Definition optional (os : OS) (text : gostring) : gostring * option error :=
  match optional_brackets (length text) text with
  | Some (text', None) => optional_tail os text'
  | Some (text', Some e) => (text', Some e)
  | None => (text, None)
  end.

(** One turn of the loop of [Render]. *)
Definition render_param (text : gostring) (p : Param) : gostring :=
  if (0 <? length (fst p))%nat
  then let t := str "{{" ++ fst p ++ str "}}" in Replace text t (snd p)
  else text ++ str " " ++ snd p.

Definition substitute (text : gostring) (params : list Param) : gostring :=
  fold_left render_param params text.

Definition Render (os : OS) (c : Command) (params : list Param)
    : gostring * option error :=
  optional os (substitute (Params c) params).

(** ** The session counter *)

(** Go's [int64]: arithmetic wraps around. *)
Definition wrap64 (z : Z) : Z := (z + 2 ^ 63) mod 2 ^ 64 - 2 ^ 63.

(** The package variables [mtx] and [sessionID]. *)
Record Shared : Type := {
  mtx : bool;       (* true: locked *)
  sessionID : Z
}.

(** The program points of one call of [nextID], one per statement. *)
Inductive pc : Type :=
| AtLock            (* mtx.Lock() *)
| AtIncr            (* sessionID++ *)
| AtUnlock          (* mtx.Unlock() *)
| AtReturn          (* return sessionID *)
| Returned (id : Z).

(** One statement of a call; [None] when the call cannot move (it
    waits for the lock, or it has returned). *)
Definition nextID_step (sh : Shared) (p : pc) : option (Shared * pc) :=
  match p with
  | AtLock =>
      if mtx sh then None
      else Some ({| mtx := true; sessionID := sessionID sh |}, AtIncr)
  | AtIncr =>
      Some ({| mtx := mtx sh; sessionID := wrap64 (sessionID sh + 1) |},
            AtUnlock)
  | AtUnlock =>
      Some ({| mtx := false; sessionID := sessionID sh |}, AtReturn)
  | AtReturn => Some (sh, Returned (sessionID sh))
  | Returned _ => None
  end.

(** Several goroutines inside [nextID]. *)
Record Config : Type := {
  shared : Shared;
  calls : list pc
}.

Fixpoint set_nth {A : Type} (i : nat) (x : A) (l : list A) : list A :=
  match l, i with
  | [], _ => []
  | _ :: l', O => x :: l'
  | y :: l', S i' => y :: set_nth i' x l'
  end.

(** Goroutine [i] runs its next statement. *)
Definition sched_step (i : nat) (cfg : Config) : option Config :=
  match nth_error (calls cfg) i with
  | None => None
  | Some p =>
      match nextID_step (shared cfg) p with
      | None => None
      | Some (sh, p') =>
          Some {| shared := sh; calls := set_nth i p' (calls cfg) |}
      end
  end.

(** An interleaving: the goroutines in the order they move. *)
Fixpoint run_schedule (sched : list nat) (cfg : Config) : option Config :=
  match sched with
  | [] => Some cfg
  | i :: sched' =>
      match sched_step i cfg with
      | None => None
      | Some cfg' => run_schedule sched' cfg'
      end
  end.

(** [n] calls about to start, the counter at [sid], the lock free. *)
Definition start_calls (sid : Z) (n : nat) : Config :=
  {| shared := {| mtx := false; sessionID := sid |};
     calls := repeat AtLock n |}.

(** [nextID] called with nothing else running: the identifier and the
    counter after the call. *)
Definition nextID (sid : Z) : Z * Z :=
  let sid' := wrap64 (sid + 1) in (sid', sid').

(** ** The process runner *)

Record Runtime : Type := {
  SID : Z;
  PID : Z;
  RC : Z;
  Cmd : gostring;
  Stdout : gostring;
  Stderr : gostring;
  SystemTime : Z;
  UserTime : Z;
  Started : Z;
  Finished : Z
}.

(** [Runtime{}]. *)
Definition Runtime0 : Runtime :=
  {| SID := 0; PID := 0; RC := 0; Cmd := []; Stdout := []; Stderr := [];
     SystemTime := 0; UserTime := 0; Started := 0; Finished := 0 |}.

Definition set_SID (v : Z) (r : Runtime) : Runtime :=
  {| SID := v; PID := PID r; RC := RC r; Cmd := Cmd r; Stdout := Stdout r;
     Stderr := Stderr r; SystemTime := SystemTime r; UserTime := UserTime r;
     Started := Started r; Finished := Finished r |}.
Definition set_PID (v : Z) (r : Runtime) : Runtime :=
  {| SID := SID r; PID := v; RC := RC r; Cmd := Cmd r; Stdout := Stdout r;
     Stderr := Stderr r; SystemTime := SystemTime r; UserTime := UserTime r;
     Started := Started r; Finished := Finished r |}.
Definition set_RC (v : Z) (r : Runtime) : Runtime :=
  {| SID := SID r; PID := PID r; RC := v; Cmd := Cmd r; Stdout := Stdout r;
     Stderr := Stderr r; SystemTime := SystemTime r; UserTime := UserTime r;
     Started := Started r; Finished := Finished r |}.
Definition set_Cmd (v : gostring) (r : Runtime) : Runtime :=
  {| SID := SID r; PID := PID r; RC := RC r; Cmd := v; Stdout := Stdout r;
     Stderr := Stderr r; SystemTime := SystemTime r; UserTime := UserTime r;
     Started := Started r; Finished := Finished r |}.
Definition set_Stdout (v : gostring) (r : Runtime) : Runtime :=
  {| SID := SID r; PID := PID r; RC := RC r; Cmd := Cmd r; Stdout := v;
     Stderr := Stderr r; SystemTime := SystemTime r; UserTime := UserTime r;
     Started := Started r; Finished := Finished r |}.
Definition set_Stderr (v : gostring) (r : Runtime) : Runtime :=
  {| SID := SID r; PID := PID r; RC := RC r; Cmd := Cmd r; Stdout := Stdout r;
     Stderr := v; SystemTime := SystemTime r; UserTime := UserTime r;
     Started := Started r; Finished := Finished r |}.
Definition set_UserTime (v : Z) (r : Runtime) : Runtime :=
  {| SID := SID r; PID := PID r; RC := RC r; Cmd := Cmd r; Stdout := Stdout r;
     Stderr := Stderr r; SystemTime := SystemTime r; UserTime := v;
     Started := Started r; Finished := Finished r |}.
Definition set_Started (v : Z) (r : Runtime) : Runtime :=
  {| SID := SID r; PID := PID r; RC := RC r; Cmd := Cmd r; Stdout := Stdout r;
     Stderr := Stderr r; SystemTime := SystemTime r; UserTime := UserTime r;
     Started := v; Finished := Finished r |}.
Definition set_Finished (v : Z) (r : Runtime) : Runtime :=
  {| SID := SID r; PID := PID r; RC := RC r; Cmd := Cmd r; Stdout := Stdout r;
     Stderr := Stderr r; SystemTime := SystemTime r; UserTime := UserTime r;
     Started := Started r; Finished := v |}.

(** [syscall.WaitStatus] and its [ExitStatus]: the exit code of a
    process that exited, [-1] otherwise. *)
Inductive WaitStatus : Type :=
| Exited (code : Z)
| Signaled (sig : Z)
| Stopped (sig : Z)
| Continued.

Definition ExitStatus (ws : WaitStatus) : Z :=
  match ws with
  | Exited code => code
  | _ => -1
  end.

(** What the runner reads of an [*os.ProcessState]. *)
Record ProcessState : Type := {
  ps_Pid : Z;
  ps_Sys : WaitStatus;
  ps_UserTime : Z
}.

(** What the runner sets of an [os.ProcAttr]; [Files] is always
    [{nil, outIn, errIn}]. *)
Record ProcAttr : Type := {
  attr_Dir : gostring;
  attr_Uid : option Z    (* Sys.Credential.Uid, when a user is given *)
}.

(** The results of the calls [Runner] makes outside the package, for
    one invocation. *)
Record World : Type := {
  w_os : OS;
  LookPath : gostring -> gostring * option error;
  Pipe_err : option error;      (* errOut, errIn, err := os.Pipe() *)
  Pipe_out : option error;      (* outOut, outIn, err := os.Pipe() *)
  Getuid : Z;
  user_Lookup : gostring -> gostring * option error;   (* u.Uid, err *)
  ParseUint : gostring -> Z * option error;            (* base 0, 32 bits *)
  StartProcess : gostring -> list gostring -> ProcAttr -> option error;
  Now_started : Z;
  Wait : option ProcessState;   (* None: p.Wait() failed, the state is nil *)
  Now_finished : Z;
  read_outOut : gostring * option error;   (* readString(outOut) *)
  read_errOut : gostring * option error    (* readString(errOut) *)
}.

(** How a function call ends. *)
Inductive Outcome : Type :=
| Returns (err : option error)
| Panics.

(** What the statements of [Runner] act on: the record [r], the
    package's session counter, and the call of [os.StartProcess] once
    it is made. *)
Record Frame : Type := {
  fr_r : Runtime;
  fr_sessionID : Z;
  fr_spawn : option (gostring * list gostring * ProcAttr)
}.

(** The statements of [Runner] before [finisher] is defined: each
    goes on with a value or makes [Runner] return an error. *)
Definition launch (A : Type) : Type := Frame -> (A + error) * Frame.

Definition ret {A : Type} (a : A) : launch A := fun fr => (inl a, fr).

Definition bind {A B : Type} (m : launch A) (k : A -> launch B) : launch B :=
  fun fr =>
    match m fr with
    | (inl a, fr') => k a fr'
    | (inr e, fr') => (inr e, fr')
    end.

Definition fail {A : Type} (e : error) : launch A := fun fr => (inr e, fr).

(** An assignment to a field of [r]. *)
Definition modify (f : Runtime -> Runtime) : launch unit :=
  fun fr =>
    (inl tt, {| fr_r := f (fr_r fr); fr_sessionID := fr_sessionID fr;
                fr_spawn := fr_spawn fr |}).

Definition get : launch Runtime := fun fr => (inl (fr_r fr), fr).

(** [x, err := call; if err != nil { return err }]. *)
Definition try {A : Type} (res : A * option error) : launch A :=
  match snd res with
  | Some e => fail e
  | None => ret (fst res)
  end.

Definition check (res : option error) : launch unit :=
  match res with
  | Some e => fail e
  | None => ret tt
  end.

(** [nextID()], no other goroutine running. *)
Definition call_nextID : launch Z :=
  fun fr =>
    let (id, sid') := nextID (fr_sessionID fr) in
    (inl id, {| fr_r := fr_r fr; fr_sessionID := sid';
                fr_spawn := fr_spawn fr |}).

(** [os.StartProcess(path, argv, attr)]. *)
Definition call_StartProcess (w : World) (path : gostring)
    (argv : list gostring) (attr : ProcAttr) : launch unit :=
  fun fr =>
    check (StartProcess w path argv attr)
      {| fr_r := fr_r fr; fr_sessionID := fr_sessionID fr;
         fr_spawn := Some (path, argv, attr) |}.

Declare Scope launch_scope.
Delimit Scope launch_scope with launch.
Notation "x <- m ;; k" := (bind m (fun x => k))
  (at level 61, m at next level, right associativity) : launch_scope.
Notation "m ;;; k" := (bind m (fun _ => k))
  (at level 61, right associativity) : launch_scope.

(** The process attributes: working directory and, for a user, the
    credential. *)
Definition build_attr (w : World) (c : Command) : launch ProcAttr :=
  (let dir := if (0 <? length (Dir c))%nat then Dir c else [] in
   if (0 <? length (User c))%nat
   then
     if negb (Getuid w =? 0) then fail ErrMustBeRoot
     else
       u <- try (user_Lookup w (User c)) ;;
       uid <- try (ParseUint w u) ;;
       ret {| attr_Dir := dir; attr_Uid := Some (uid mod 2 ^ 32) |}
   else ret {| attr_Dir := dir; attr_Uid := None |})%launch.

(** [Runner] from its first statement to [r.Started = time.Now()].
    (The closing of the pipe ends, deferred or not, has no part in
    what is returned or sent and is left out.) *)
Definition start (w : World) (c : Command) (params : list Param)
    : launch unit :=
  (path <- try (LookPath w (Path c)) ;;
   text <- try (Render (w_os w) c params) ;;
   modify (set_Cmd path) ;;;
   (if (0 <? length text)%nat
    then modify (fun r => set_Cmd (Cmd r ++ str " " ++ text) r)
    else ret tt) ;;;
   check (Pipe_err w) ;;;
   check (Pipe_out w) ;;;
   attr <- build_attr w c ;;
   id <- call_nextID ;;
   modify (set_SID id) ;;;
   r <- get ;;
   call_StartProcess w path (Fields (Cmd r)) attr ;;;
   modify (set_Started (Now_started w)))%launch.

(** The closure [finisher], run on the record [r]: how it ends, the
    record after it, and what it sends on [rt]. *)
Definition finisher (w : World) (c : Command) (r : Runtime)
    : Outcome * Runtime * list Runtime :=
  let s := Wait w in
  let r := set_Finished (Now_finished w) r in
  let r := set_Stdout (fst (read_outOut w)) r in
  match snd (read_outOut w) with
  | Some e => (Returns (Some e), r, [])
  | None =>
      let r := set_Stderr (fst (read_errOut w)) r in
      match snd (read_errOut w) with
      | Some e => (Returns (Some e), r, [])
      | None =>
          match s with
          | None => (Panics, r, [])   (* s.Pid() on a nil state *)
          | Some s =>
              let r := set_PID (ps_Pid s) r in
              let r := set_RC (ExitStatus (ps_Sys s)) r in
              let r := set_UserTime (ps_UserTime s) r in
              (Returns None, r, if Async c then [r] else [])
          end
      end
  end.

(** One call of [Runner]. *)
Record RunnerResult : Type := {
  rr_outcome : Outcome;          (* how [Runner] ends *)
  rr_sent : list Runtime;        (* what [Runner] itself sends on [rt] *)
  rr_spawn : option (gostring * list gostring * ProcAttr);
                                 (* its call of [os.StartProcess] *)
  rr_go : option (Outcome * list Runtime);
                                 (* the goroutine of [go finisher()]:
                                    how it ends and what it sends on [rt] *)
  rr_sessionID : Z               (* the session counter afterwards *)
}.

(** [r := Runtime{}], the session counter at [sid]. *)
Definition frame0 (sid : Z) : Frame :=
  {| fr_r := Runtime0; fr_sessionID := sid; fr_spawn := None |}.

(** [Runner], entered with the session counter at [sid].  The deferred
    function sends [r] when [Runner] returns or panics.  In
    asynchronous mode the goroutine writes to the same [r]; the
    deferred send is taken to read [r] before the goroutine has
    written to it. *)
Definition Runner (w : World) (sid : Z) (c : Command) (params : list Param)
    : RunnerResult :=
  match start w c params (frame0 sid) with
  | (inr e, fr) =>
      {| rr_outcome := Returns (Some e);
         rr_sent := [fr_r fr];
         rr_spawn := fr_spawn fr;
         rr_go := None;
         rr_sessionID := fr_sessionID fr |}
  | (inl _, fr) =>
      if Async c
      then
        let '(out, _, sent) := finisher w c (fr_r fr) in
        {| rr_outcome := Returns None;
           rr_sent := [fr_r fr];
           rr_spawn := fr_spawn fr;
           rr_go := Some (out, sent);
           rr_sessionID := fr_sessionID fr |}
      else
        let '(out, r', _) := finisher w c (fr_r fr) in
        {| rr_outcome := out;
           rr_sent := [r'];
           rr_spawn := fr_spawn fr;
           rr_go := None;
           rr_sessionID := fr_sessionID fr |}
  end.

(** Everything sent on [rt] for one call of [Runner], by [Runner] and
    by its goroutine. *)
Definition delivered (res : RunnerResult) : list Runtime :=
  rr_sent res
  ++ match rr_go res with
     | Some (_, sent) => sent
     | None => []
     end.

(** [Run]: a channel of capacity 1, [Runner], then the first value of
    the channel.  [None] when [Runner] panics. *)
Definition Run (w : World) (sid : Z) (c : Command) (params : list Param)
    : option (Runtime * option error) :=
  let res := Runner w sid c params in
  match rr_outcome res, rr_sent res with
  | Returns err, r :: _ => Some (r, err)
  | _, _ => None
  end.

Definition set_Async (b : bool) (c : Command) : Command :=
  {| Path := Path c; Params := Params c; Dir := Dir c; User := User c;
     Async := b |}.

(** [RunAsync]. *)
Definition RunAsync (w : World) (sid : Z) (c : Command)
    (params : list Param) : RunnerResult :=
  Runner w sid (set_Async true c) params.

(** ** The vocabulary of the statements *)

(** A substring of the form [{{] + one or more upper-case letters +
    [}}]. *)
Definition has_placeholder (text : gostring) : Prop :=
  exists pre name post,
    text = pre ++ str "{{" ++ name ++ str "}}" ++ post
    /\ name <> [] /\ Forall (fun c => isUpper c = true) name.

(** The leftmost pair: the first ["["] and the first ["]"]. *)
Definition leftmost_pair (pre frag : gostring) : Prop :=
  ~ In "[" pre /\ ~ In "]" pre /\ ~ In "]" frag.

(** A text without brackets. *)
Definition bracket_free (s : gostring) : Prop := ~ In "[" s /\ ~ In "]" s.

(** A text whose brackets are matched and not nested:
    [s0 [f1] s1 ... [fn] sn], given as [s0] and the pairs [(fi, si)]. *)
Fixpoint flat (s0 : gostring) (frags : list (gostring * gostring))
    : gostring :=
  match frags with
  | [] => s0
  | (f, s) :: rest => s0 ++ "[" :: f ++ "]" :: flat s rest
  end.

Definition flat_ok (s0 : gostring) (frags : list (gostring * gostring))
    : Prop :=
  bracket_free s0
  /\ Forall (fun fs => bracket_free (fst fs) /\ bracket_free (snd fs)) frags.

Definition isBracket (c : ascii) : bool :=
  Ascii.eqb c "[" || Ascii.eqb c "]".

(** The text without its brackets. *)
Definition unbracket (text : gostring) : gostring :=
  filter (fun c => negb (isBracket c)) text.

(** The literal segments [s0 s1 ... sn] of a flat text. *)
Definition literals (s0 : gostring) (frags : list (gostring * gostring))
    : gostring :=
  s0 ++ concat (map snd frags).

(** [old] occurs in [s] at index [k]. *)
Definition occurs_at (old : gostring) (k : nat) (s : gostring) : Prop :=
  exists a b, s = a ++ old ++ b /\ length a = k.

(** [replaced_all old new s s']: [s'] is [s] with every instance of
    [old] replaced by [new], the instances taken from the left and
    not overlapping. *)
Inductive replaced_all (old new : gostring) : gostring -> gostring -> Prop :=
| replaced_none (s : gostring) :
    (forall k, ~ occurs_at old k s) ->
    replaced_all old new s s
| replaced_next (a b b' : gostring) :
    (forall k, (k < length a)%nat -> ~ occurs_at old k (a ++ old ++ b)) ->
    replaced_all old new b b' ->
    replaced_all old new (a ++ old ++ b) (a ++ new ++ b').

(** The first two steps of the rendering, in the words of the
    specification: the parameters are taken in the order supplied; a
    named one replaces every [{{NAME}}] by its value, a nameless one
    appends a space and its value. *)
Inductive substituted : gostring -> list Param -> gostring -> Prop :=
| substituted_nil (text : gostring) :
    substituted text [] text
| substituted_named (text name value text' text'' : gostring)
    (params : list Param) :
    name <> [] ->
    replaced_all (str "{{" ++ name ++ str "}}") value text text' ->
    substituted text' params text'' ->
    substituted text ((name, value) :: params) text''
| substituted_bare (text value text'' : gostring) (params : list Param) :
    substituted (text ++ str " " ++ value) params text'' ->
    substituted text (([], value) :: params) text''.

(** A run of characters of the class [[\w.-]]. *)
Definition glob_word (s : gostring) : Prop :=
  Forall (fun c => isGlobChar c = true) s.



(** What the scanner has read is part of a match in the making. *)
Definition glob_state_ok (st : glob_state) : Prop :=
  match st with
  | BeforeStar run => glob_word (rev run)
  | AfterStar m =>
      exists a b, rev m = a ++ "*" :: b /\ glob_word a /\ glob_word b
  end.

(** [r.Cmd]: the path, and the rendered text behind a space when
    there is one. *)
Definition cmdline (path text : gostring) : gostring :=
  if (0 <? length text)%nat then path ++ str " " ++ text else path.

(** The child process of an invocation starts: [Runner] comes past
    [os.StartProcess] without an error. *)
Definition child_starts (w : World) (sid : Z) (c : Command)
    (params : list Param) : Prop :=
  exists fr, start w c params (frame0 sid) = (inl tt, fr).



(** A call between [mtx.Lock()] and [mtx.Unlock()], and a call that
    has done its [sessionID++]. *)
Definition holds_lock (p : pc) : bool :=
  match p with
  | AtIncr | AtUnlock => true
  | _ => false
  end.

Definition has_incremented (p : pc) : bool :=
  match p with
  | AtUnlock | AtReturn | Returned _ => true
  | _ => false
  end.

Definition count (f : pc -> bool) (l : list pc) : nat :=
  length (filter f l).

(** What the lock keeps true of the counter, started at [sid]: the
    lock is taken exactly when one call is inside, and the counter
    has moved once for every call that has been inside. *)
Definition counter_invariant (sid : Z) (cfg : Config) : Prop :=
  count holds_lock (calls cfg) = (if mtx (shared cfg) then 1 else 0)%nat
  /\ sessionID (shared cfg)
     = wrap64 (sid + Z.of_nat (count has_incremented (calls cfg))).

(** ** Concrete inputs *)

(** A pattern of literal characters and ["*"] against a file name, as
    [filepath.Match] does it for such a pattern (the matches of
    [globs] have no other special character, and no separator). *)
Fixpoint glob_match (pattern : gostring) : gostring -> bool :=
  match pattern with
  | [] => fun name => match name with [] => true | _ :: _ => false end
  | p :: pattern' =>
      if Ascii.eqb p "*"
      then fix star (name : gostring) : bool :=
             glob_match pattern' name
             || match name with
                | [] => false
                | _ :: name' => star name'
                end
      else fun name =>
             match name with
             | [] => false
             | c :: name' => Ascii.eqb p c && glob_match pattern' name'
             end
  end.

(** An empty environment and a working directory with the files
    [names] (in sorted order). *)
Definition os_dir (names : list gostring) : OS :=
  {| Getenv := fun _ => [];
     Glob := fun pattern => (filter (glob_match pattern) names, None) |}.

(** The directory of the package's test. *)
Definition os_repo : OS := os_dir [str "cmd.go"; str "cmd_test.go"].

Definition command (path params : string) : Command :=
  {| Path := str path; Params := str params; Dir := []; User := [];
     Async := false |}.

(** A machine where every call succeeds: the path is found as it is,
    the caller is not root, the child has process id 4242, exits with
    [code] and writes nothing; [out] is the result of reading its
    standard output. *)
Definition world (code : Z) (out : gostring * option error) : World :=
  {| w_os := os_repo;
     LookPath := fun path => (path, None);
     Pipe_err := None;
     Pipe_out := None;
     Getuid := 1000;
     user_Lookup := fun _ => ([], Some (ErrExternal "user: unknown user"));
     ParseUint := fun _ => (0, None);
     StartProcess := fun _ _ _ => None;
     Now_started := 100;
     Wait := Some {| ps_Pid := 4242; ps_Sys := Exited code;
                     ps_UserTime := 5 |};
     Now_finished := 200;
     read_outOut := out;
     read_errOut := ([], None) |}.

(** ** The earlier [Run] *)

(** The file of the repository that holds the package before the
    result channel: [Command] has no [Async], and [Run] does the work
    of [Runner] itself.  [Render], [optional] and [nextID] are the
    same text as in [cmd.go]. *)
Module Earlier.

Record Command : Type := {
  Path : gostring;
  Params : gostring;
  Dir : gostring;
  User : gostring
}.

Definition Render (os : OS) (c : Command) (params : list Param)
    : gostring * option error :=
  optional os (substitute (Params c) params).

Definition build_attr (w : World) (c : Command) : launch ProcAttr :=
  (let dir := if (0 <? length (Dir c))%nat then Dir c else [] in
   if (0 <? length (User c))%nat
   then
     if negb (Getuid w =? 0) then fail ErrMustBeRoot
     else
       u <- try (user_Lookup w (User c)) ;;
       uid <- try (ParseUint w u) ;;
       ret {| attr_Dir := dir; attr_Uid := Some (uid mod 2 ^ 32) |}
   else ret {| attr_Dir := dir; attr_Uid := None |})%launch.

(** [Run] down to the second [ioutil.ReadAll]: every step that can
    make it return an error.  The session identifier is taken after
    [os.StartProcess] has succeeded; the output is not stored in [r]
    before both pipes are read. *)
Definition run_steps (w : World) (c : Command) (params : list Param)
    : launch (gostring * gostring) :=
  (path <- try (LookPath w (Path c)) ;;
   text <- try (Render (w_os w) c params) ;;
   modify (set_Cmd path) ;;;
   (if (0 <? length text)%nat
    then modify (fun r => set_Cmd (Cmd r ++ str " " ++ text) r)
    else ret tt) ;;;
   check (Pipe_err w) ;;;
   check (Pipe_out w) ;;;
   attr <- build_attr w c ;;
   let text := if (0 <? length text)%nat then path ++ str " " ++ text
               else path in
   call_StartProcess w path (Fields text) attr ;;;
   id <- call_nextID ;;
   modify (set_SID id) ;;;
   modify (set_Started (Now_started w)) ;;;
   modify (set_Finished (Now_finished w)) ;;;
   stdout <- try (read_outOut w) ;;
   stderr <- try (read_errOut w) ;;
   ret (stdout, stderr))%launch.

(** [Run], entered with the session counter at [sid]: what it returns
    ([None] when it panics on the nil state of a failed [p.Wait()])
    and the session counter afterwards. *)
Definition Run (w : World) (sid : Z) (c : Command) (params : list Param)
    : option (Runtime * option error) * Z :=
  match run_steps w c params (frame0 sid) with
  | (inr e, fr) => (Some (fr_r fr, Some e), fr_sessionID fr)
  | (inl (stdout, stderr), fr) =>
      let r := set_Stdout stdout (fr_r fr) in
      let r := set_Stderr stderr r in
      match Wait w with
      | None => (None, fr_sessionID fr)
      | Some s =>
          let r := set_PID (ps_Pid s) r in
          let r := set_RC (ExitStatus (ps_Sys s)) r in
          let r := set_UserTime (ps_UserTime s) r in
          (Some (r, None), fr_sessionID fr)
      end
  end.

End Earlier.

(** A command of [cmd.go] as one of the earlier file. *)
Definition earlier (c : Command) : Earlier.Command :=
  {| Earlier.Path := Path c; Earlier.Params := Params c;
     Earlier.Dir := Dir c; Earlier.User := User c |}.

(** ** More vocabulary *)

(** [t] is [s] with some characters left out. *)
Inductive subseq : gostring -> gostring -> Prop :=
| subseq_nil : subseq [] []
| subseq_keep (c : ascii) (t s : gostring) :
    subseq t s -> subseq (c :: t) (c :: s)
| subseq_drop (c : ascii) (t s : gostring) :
    subseq t s -> subseq t (c :: s).

(** The calls [0 .. n-1] of [nextID] one after the other, each with
    its four statements. *)
Definition in_turn (n : nat) : list nat :=
  flat_map (fun i => [i; i; i; i]) (seq 0 n).

(** The identifiers that [n] calls in turn return from the counter at
    [sid]. *)
Definition ids_in_turn (sid : Z) (n : nat) : list pc :=
  map (fun i => Returned (sid + 1 + Z.of_nat i)) (seq 0 n).

(** An identifier that was a value of the counter after one of the
    increments done so far. *)
Definition issued (sid : Z) (cfg : Config) (p : pc) : Prop :=
  match p with
  | Returned id =>
      exists k, (1 <= k <= count has_incremented (calls cfg))%nat
                /\ id = wrap64 (sid + Z.of_nat k)
  | _ => True
  end.

(** A machine like [world], with more of it open: the user id of the
    caller, the result of [os.StartProcess] and of [p.Wait()].  Paths
    under [/nowhere] are not found; the one user known is [paul],
    with the user id 1001. *)
Definition machine (uid : Z) (started : option error)
    (waited : option ProcessState) (out : gostring * option error) : World :=
  {| w_os := os_repo;
     LookPath := fun path =>
       if HasPrefix path (str "/nowhere")
       then ([], Some (ErrExternal "exec: no such file or directory"))
       else (path, None);
     Pipe_err := None;
     Pipe_out := None;
     Getuid := uid;
     user_Lookup := fun name =>
       if list_eq_dec ascii_dec name (str "paul") then (str "1001", None)
       else ([], Some (ErrExternal "user: unknown user"));
     ParseUint := fun s =>
       if list_eq_dec ascii_dec s (str "1001") then (1001, None)
       else (0, Some (ErrExternal "strconv.ParseUint: invalid syntax"));
     StartProcess := fun _ _ _ => started;
     Now_started := 100;
     Wait := waited;
     Now_finished := 200;
     read_outOut := out;
     read_errOut := ([], None) |}.

Definition exited (code : Z) : option ProcessState :=
  Some {| ps_Pid := 4242; ps_Sys := Exited code; ps_UserTime := 5 |}.

Definition command_as (path params user : string) : Command :=
  {| Path := str path; Params := str params; Dir := str "/tmp";
     User := str user; Async := false |}.

(** * Proofs *)

(** A character is not in a given text. *)
Ltac absent :=
  let H := fresh "H" in
  intros H; cbn in H; intuition discriminate.

(** ** Characters *)

Lemma ascii_eqb_eq (a b : ascii) : Ascii.eqb a b = true <-> a = b.
Proof. apply Ascii.eqb_eq. Qed.

Lemma ascii_eqb_neq (a b : ascii) : Ascii.eqb a b = false <-> a <> b.
Proof. apply Ascii.eqb_neq. Qed.

(** ** [HasPrefix] and [Index] *)

Lemma HasPrefix_app (p t : gostring) : HasPrefix (p ++ t) p = true.
Proof.
  induction p as [|a p IH]; simpl; [reflexivity|].
  now rewrite Ascii.eqb_refl, IH.
Qed.

Lemma HasPrefix_inv (s p : gostring) :
  HasPrefix s p = true -> exists t, s = p ++ t.
Proof.
  revert s; induction p as [|a p IH]; intros s H.
  - now exists s.
  - destruct s as [|c s]; simpl in H; [discriminate|].
    apply andb_true_iff in H as [Hc Hp].
    apply ascii_eqb_eq in Hc; subst c.
    destruct (IH _ Hp) as [t ->]. now exists t.
Qed.

Lemma HasPrefix_char (s : gostring) (c : ascii) :
  HasPrefix s [c] = match s with d :: _ => Ascii.eqb c d | [] => false end.
Proof. destruct s; simpl; [reflexivity|]. now rewrite andb_true_r. Qed.

(** [Index] of a single character: absent, or at the end of the
    longest prefix without it. *)
Lemma Index_char_absent (s : gostring) (c : ascii) :
  ~ In c s -> Index s [c] = -1.
Proof.
  unfold Index. generalize 0.
  induction s as [|d s IH]; intros i H; simpl; [reflexivity|].
  rewrite andb_true_r.
  destruct (Ascii.eqb c d) eqn:E.
  - apply ascii_eqb_eq in E; subst. exfalso; apply H; now left.
  - apply IH. intros Hin; apply H; now right.
Qed.

Lemma Index_char_app (pre post : gostring) (c : ascii) :
  ~ In c pre -> Index (pre ++ c :: post) [c] = Z.of_nat (length pre).
Proof.
  unfold Index.
  assert (G : forall i, ~ In c pre ->
            index_from i (pre ++ c :: post) [c] = i + Z.of_nat (length pre)).
  { induction pre as [|d pre IH]; intros i H.
    - simpl. rewrite Ascii.eqb_refl. simpl. lia.
    - cbn [app index_from]. rewrite HasPrefix_char.
      destruct (Ascii.eqb c d) eqn:E.
      + apply ascii_eqb_eq in E; subst. exfalso; apply H; now left.
      + rewrite IH; [cbn [length]; lia|].
        intros Hin; apply H; now right. }
  intros H. now rewrite G.
Qed.

Lemma Index_char_spec (s : gostring) (c : ascii) :
  (~ In c s /\ Index s [c] = -1)
  \/ (exists pre post, s = pre ++ c :: post /\ ~ In c pre
        /\ Index s [c] = Z.of_nat (length pre)).
Proof.
  destruct (in_dec ascii_dec c s) as [Hin|Hnin].
  - right. induction s as [|d s IH]; [contradiction|].
    destruct (ascii_dec c d) as [->|Hne].
    + exists [], s. repeat split; auto.
      apply (Index_char_app [] s d). intros [].
    + destruct Hin as [->|Hin]; [congruence|].
      destruct (IH Hin) as (pre & post & -> & Hpre & _).
      exists (d :: pre), post.
      assert (Hn : ~ In c (d :: pre)) by (intros [?|?]; [congruence|auto]).
      repeat split; auto.
      apply (Index_char_app (d :: pre) post c Hn).
  - left. split; [assumption|]. now apply Index_char_absent.
Qed.

(** ** Slices *)

Lemma slice_to_app (pre rest : gostring) :
  slice_to (pre ++ rest) (Z.of_nat (length pre)) = pre.
Proof.
  unfold slice_to. rewrite Nat2Z.id, firstn_app, Nat.sub_diag, firstn_all.
  simpl. now rewrite app_nil_r.
Qed.

Lemma slice_from_app (pre rest : gostring) :
  slice_from (pre ++ rest) (Z.of_nat (length pre)) = rest.
Proof.
  unfold slice_from. rewrite Nat2Z.id, skipn_app, Nat.sub_diag, skipn_all.
  reflexivity.
Qed.

Lemma slice_app (pre mid rest : gostring) :
  slice (pre ++ mid ++ rest) (Z.of_nat (length pre))
    (Z.of_nat (length pre + length mid)) = mid.
Proof.
  unfold slice. rewrite Nat2Z.id, skipn_app, Nat.sub_diag, skipn_all.
  simpl. replace (Z.to_nat _) with (length mid) by lia.
  rewrite firstn_app, Nat.sub_diag, firstn_all. simpl. now rewrite app_nil_r.
Qed.

(** ** The placeholder pattern *)

Lemma upper_run_spec (seen : bool) (s : gostring) :
  upper_run seen s = true <->
  exists name post,
    s = name ++ str "}}" ++ post
    /\ Forall (fun c => isUpper c = true) name
    /\ (seen = true \/ name <> []).
Proof.
  revert seen; induction s as [|c s IH]; intros seen; cbn [upper_run].
  - split; [discriminate|].
    intros (name & post & E & _). destruct name; discriminate.
  - destruct (isUpper c) eqn:U.
    + rewrite IH. split.
      * intros (name & post & -> & Hall & _).
        exists (c :: name), post. repeat split; auto.
        right; discriminate.
      * intros (name & post & E & Hall & _).
        destruct name as [|d name]; cbn in E.
        -- injection E as -> _. discriminate.
        -- injection E as -> ->. inversion Hall; subst.
           exists name, post. repeat split; auto.
    + split.
      * intros H. apply andb_true_iff in H as [-> H].
        apply HasPrefix_inv in H as [post E].
        exists [], post. repeat split; auto.
      * intros (name & post & E & Hall & Hs).
        destruct name as [|d name]; cbn in E.
        -- destruct Hs as [->|]; [|congruence].
           rewrite E. apply (HasPrefix_app (str "}}") post).
        -- injection E as -> ->. inversion Hall; congruence.
Qed.

Lemma pmatch_here_spec (s : gostring) :
  pmatch_here s = true <->
  exists name post,
    s = str "{{" ++ name ++ str "}}" ++ post
    /\ name <> [] /\ Forall (fun c => isUpper c = true) name.
Proof.
  split.
  - intros H. destruct s as [|a [|b s]]; try discriminate.
    unfold pmatch_here in H.
    apply andb_true_iff in H as [H U]. apply andb_true_iff in H as [Ha Hb].
    apply ascii_eqb_eq in Ha, Hb. subst a b.
    apply upper_run_spec in U as (name & post & -> & Hall & [|Hne]);
      [discriminate|].
    exists name, post. repeat split; auto.
  - intros (name & post & -> & Hne & Hall). cbn.
    apply upper_run_spec. exists name, post. repeat split; auto.
Qed.

(** [pmatch.MatchString] is true exactly of the texts with such a
    substring. *)
Lemma pmatch_MatchString_spec (text : gostring) :
  pmatch_MatchString text = true <-> has_placeholder text.
Proof.
  unfold has_placeholder. induction text as [|c s IH]; cbn [pmatch_MatchString].
  - split.
    + rewrite orb_false_r. intros H.
      apply pmatch_here_spec in H as (name & post & E & _). discriminate.
    + intros (pre & name & post & E & _).
      destruct pre; discriminate.
  - rewrite orb_true_iff, IH, pmatch_here_spec. split.
    + intros [(name & post & E & H)|(pre & name & post & E & H)].
      * exists [], name, post. split; auto.
      * exists (c :: pre), name, post. split; [now rewrite E|auto].
    + intros (pre & name & post & E & H).
      destruct pre as [|d pre].
      * left. exists name, post. split; auto.
      * right. injection E as -> ->. exists pre, name, post. split; auto.
Qed.

Lemma has_placeholder_app (a b c : gostring) :
  has_placeholder b -> has_placeholder (a ++ b ++ c).
Proof.
  intros (pre & name & post & -> & H).
  exists (a ++ pre), name, (post ++ c). split; [|exact H].
  now rewrite <- !app_assoc.
Qed.

Lemma pmatch_MatchString_app (a b c : gostring) :
  pmatch_MatchString b = true -> pmatch_MatchString (a ++ b ++ c) = true.
Proof.
  rewrite !pmatch_MatchString_spec. apply has_placeholder_app.
Qed.

(** ** The bracket loop *)

Lemma optional_brackets_break (fuel : nat) (text : gostring) :
  Index text (str "[") < 0 ->
  optional_brackets fuel text = Some (text, None).
Proof.
  intros H. destruct fuel; cbn [optional_brackets];
    destruct (Z.ltb_spec (Index text (str "[")) 0); auto; lia.
Qed.

Lemma optional_brackets_syntax (fuel : nat) (text : gostring) :
  0 <= Index text (str "[") ->
  Index text (str "]") < 0 \/ Index text (str "]") < Index text (str "[") ->
  optional_brackets fuel text = Some (text, Some ErrSyntaxError).
Proof.
  intros H1 H2. destruct fuel; cbn [optional_brackets];
    destruct (Z.ltb_spec (Index text (str "[")) 0); try lia;
    destruct (Z.ltb_spec (Index text (str "]")) 0);
    destruct (Z.ltb_spec (Index text (str "]")) (Index text (str "[")));
    cbn [orb]; auto; lia.
Qed.

Lemma leftmost_pair_indices (pre frag post : gostring) :
  leftmost_pair pre frag ->
  Index (pre ++ "[" :: frag ++ "]" :: post) (str "[")
  = Z.of_nat (length pre)
  /\ Index (pre ++ "[" :: frag ++ "]" :: post) (str "]")
     = Z.of_nat (length pre + 1 + length frag).
Proof.
  intros (H1 & H2 & H3). split.
  - now apply (Index_char_app pre (frag ++ "]" :: post) "[").
  - replace (pre ++ "[" :: frag ++ "]" :: post)
      with ((pre ++ "[" :: frag) ++ "]" :: post)
      by (now rewrite <- app_assoc).
    replace (length pre + 1 + length frag)%nat
      with (length (pre ++ "[" :: frag))
      by (rewrite length_app; cbn [length]; lia).
    apply (Index_char_app (pre ++ "[" :: frag) post "]").
    rewrite in_app_iff. intros [?|[?|?]]; auto. discriminate.
Qed.

(** One turn of the loop at a leftmost pair. *)
Lemma optional_brackets_pair (fuel : nat) (pre frag post : gostring) :
  leftmost_pair pre frag ->
  optional_brackets (S fuel) (pre ++ "[" :: frag ++ "]" :: post)
  = optional_brackets fuel
      (if pmatch_MatchString (pre ++ "[" :: frag ++ "]" :: post)
       then pre ++ post else pre ++ frag ++ post).
Proof.
  intros H. destruct (leftmost_pair_indices pre frag post H) as [Es Ee].
  cbn [optional_brackets]. rewrite Es, Ee.
  destruct (Z.ltb_spec (Z.of_nat (length pre)) 0); [lia|].
  destruct (Z.ltb_spec (Z.of_nat (length pre + 1 + length frag)) 0); [lia|].
  destruct (Z.ltb_spec (Z.of_nat (length pre + 1 + length frag))
              (Z.of_nat (length pre))); [lia|].
  cbn [orb].
  assert (E1 : slice_to (pre ++ "[" :: frag ++ "]" :: post)
                 (Z.of_nat (length pre)) = pre)
    by apply slice_to_app.
  assert (E2 : slice_from (pre ++ "[" :: frag ++ "]" :: post)
                 (Z.of_nat (length pre + 1 + length frag) + 1) = post).
  { replace (pre ++ "[" :: frag ++ "]" :: post)
      with ((pre ++ "[" :: frag ++ ["]"]) ++ post)
      by (rewrite <- !app_assoc; cbn; now rewrite <- app_assoc).
    replace (Z.of_nat (length pre + 1 + length frag) + 1)
      with (Z.of_nat (length (pre ++ "[" :: frag ++ ["]"])))
      by (rewrite length_app; cbn [length]; rewrite length_app;
          cbn [length]; lia).
    apply slice_from_app. }
  assert (E3 : slice (pre ++ "[" :: frag ++ "]" :: post)
                 (Z.of_nat (length pre) + 1)
                 (Z.of_nat (length pre + 1 + length frag)) = frag).
  { replace (pre ++ "[" :: frag ++ "]" :: post)
      with ((pre ++ ["["]) ++ frag ++ "]" :: post)
      by (now rewrite <- app_assoc).
    replace (Z.of_nat (length pre) + 1)
      with (Z.of_nat (length (pre ++ ["["])))
      by (rewrite length_app; cbn [length]; lia).
    replace (Z.of_nat (length pre + 1 + length frag))
      with (Z.of_nat (length (pre ++ ["["]) + length frag))
      by (rewrite length_app; cbn [length]; lia).
    apply slice_app. }
  rewrite E1, E2, E3.
  destruct (pmatch_MatchString _); reflexivity.
Qed.

(** When the loop neither stops nor fails, the text has a leftmost
    pair. *)
Lemma leftmost_pair_exists (text : gostring) :
  0 <= Index text (str "[") ->
  Index text (str "[") <= Index text (str "]") ->
  exists pre frag post,
    text = pre ++ "[" :: frag ++ "]" :: post /\ leftmost_pair pre frag.
Proof.
  intros H1 H2.
  destruct (Index_char_spec text "[") as [[_ E]|(p1 & q1 & E1 & N1 & I1)];
    [change [ "[" ] with (str "[") in E; lia|].
  destruct (Index_char_spec text "]") as [[_ E]|(p2 & q2 & E2 & N2 & I2)];
    [change [ "]" ] with (str "]") in E; lia|].
  change [ "[" ] with (str "[") in I1. change [ "]" ] with (str "]") in I2.
  rewrite I1, I2 in H2. clear H1 I1 I2.
  rewrite E1 in E2. apply app_eq_app in E2 as [l [[Ea Eb]|[Ea Eb]]].
  - destruct l as [|c l].
    + cbn in Eb. discriminate.
    + subst p1. rewrite length_app in H2. cbn [length] in H2. lia.
  - destruct l as [|c l].
    + cbn in Eb. discriminate.
    + cbn in Eb. injection Eb as <- ->. subst p2.
      exists p1, l, q2. split; [assumption|].
      repeat split; auto.
      * intros Hin. apply N2. apply in_or_app. now left.
      * intros Hin. apply N2. apply in_or_app. right. now right.
Qed.

(** The loop ends within [len(text)] turns, and more fuel changes
    nothing. *)
Lemma optional_brackets_fuel (n : nat) :
  forall (text : gostring) (f1 f2 : nat),
    (length text <= n)%nat ->
    (length text <= f1)%nat -> (length text <= f2)%nat ->
    optional_brackets f1 text = optional_brackets f2 text
    /\ optional_brackets f1 text <> None.
Proof.
  induction n as [|n IH]; intros text f1 f2 Hn H1 H2.
  - destruct text; [|cbn in Hn; lia].
    rewrite !optional_brackets_break by (cbn; lia).
    split; [reflexivity|discriminate].
  - destruct (Z.ltb_spec (Index text (str "[")) 0) as [L|L].
    { rewrite !optional_brackets_break by assumption.
      split; [reflexivity|discriminate]. }
    destruct (Z.ltb_spec (Index text (str "]")) (Index text (str "["))) as [M|M].
    { rewrite !optional_brackets_syntax by auto.
      split; [reflexivity|discriminate]. }
    destruct (leftmost_pair_exists text L M)
      as (pre & frag & post & -> & Hp).
    rewrite length_app in Hn, H1, H2. cbn [length] in Hn, H1, H2.
    rewrite length_app in Hn, H1, H2. cbn [length] in Hn, H1, H2.
    destruct f1 as [|f1]; [lia|]. destruct f2 as [|f2]; [lia|].
    rewrite !optional_brackets_pair by assumption.
    apply IH; destruct (pmatch_MatchString _);
      rewrite ?length_app; lia.
Qed.

Lemma optional_brackets_total (text : gostring) :
  optional_brackets (length text) text <> None.
Proof.
  apply (optional_brackets_fuel (length text) text _ (length text)); lia.
Qed.

(** [optional] at a text with a leftmost pair goes on as [optional] on
    the text after one turn. *)
Lemma optional_pair (os : OS) (pre frag post : gostring) :
  leftmost_pair pre frag ->
  optional os (pre ++ "[" :: frag ++ "]" :: post)
  = optional os
      (if pmatch_MatchString (pre ++ "[" :: frag ++ "]" :: post)
       then pre ++ post else pre ++ frag ++ post).
Proof.
  intros H.
  set (text := pre ++ "[" :: frag ++ "]" :: post).
  set (text' := if pmatch_MatchString text then pre ++ post
                else pre ++ frag ++ post).
  assert (L : (length text' + 2 <= length text)%nat).
  { subst text text'. rewrite length_app. cbn [length].
    rewrite length_app. cbn [length].
    destruct (pmatch_MatchString _); rewrite ?length_app; lia. }
  assert (E : optional_brackets (length text) text
              = optional_brackets (length text') text').
  { destruct (length text) as [|k] eqn:Ek; [lia|].
    subst text. rewrite optional_brackets_pair by assumption.
    fold text'.
    apply (optional_brackets_fuel (length text') text' k (length text'));
      lia. }
  change (optional os text = optional os text').
  unfold optional. rewrite E.
  destruct (optional_brackets (length text') text') as [[t [e|]]|] eqn:R;
    try reflexivity.
  exfalso. now apply (optional_brackets_total text').
Qed.

(** ** Texts without special characters *)

Lemma optional_no_open (os : OS) (text : gostring) :
  ~ In "[" text -> optional os text = optional_tail os text.
Proof.
  intros H. unfold optional.
  rewrite optional_brackets_break; [reflexivity|].
  change (str "[") with [ "[" ]. rewrite Index_char_absent by assumption. lia.
Qed.

Lemma expand_scan_no_dollar (mapping : gostring -> gostring) (s : gostring) :
  ~ In "$" s -> expand_scan mapping 0 s = s.
Proof.
  induction s as [|c s IH]; intros H; [reflexivity|].
  cbn [expand_scan].
  assert (Hs : ~ In "$" s) by (intros ?; apply H; now right).
  destruct s as [|d s]; [reflexivity|].
  destruct (Ascii.eqb c "$") eqn:E.
  - apply ascii_eqb_eq in E. subst. exfalso; apply H; now left.
  - now rewrite IH.
Qed.

Lemma ExpandEnv_no_dollar (os : OS) (s : gostring) :
  ~ In "$" s -> ExpandEnv os s = s.
Proof. apply expand_scan_no_dollar. Qed.

Lemma globs_scan_no_star (run s : gostring) :
  ~ In "*" s -> globs_scan (BeforeStar run) s = [].
Proof.
  revert run; induction s as [|c s IH]; intros run H; [reflexivity|].
  cbn [globs_scan].
  assert (Hs : ~ In "*" s) by (intros ?; apply H; now right).
  destruct (Ascii.eqb c "*") eqn:E.
  - apply ascii_eqb_eq in E. subst. exfalso; apply H; now left.
  - destruct (isGlobChar c); now apply IH.
Qed.

(** No placeholder, no ["$"], no ["*"]: the tail of [optional] returns
    the text as it is. *)
Lemma optional_tail_plain (os : OS) (text : gostring) :
  ~ has_placeholder text -> ~ In "$" text -> ~ In "*" text ->
  optional_tail os text = (text, None).
Proof.
  intros Hp Hd Hs. unfold optional_tail.
  destruct (pmatch_MatchString text) eqn:E.
  - apply pmatch_MatchString_spec in E. contradiction.
  - rewrite ExpandEnv_no_dollar by assumption.
    unfold globs_FindAllString. now rewrite globs_scan_no_star.
Qed.

Lemma optional_tail_incomplete (os : OS) (text : gostring) :
  has_placeholder text -> optional_tail os text = (text, Some ErrIncomplete).
Proof.
  intros H. unfold optional_tail.
  apply pmatch_MatchString_spec in H. now rewrite H.
Qed.

(** ** Flat texts *)

Lemma flat_app (a s0 : gostring) (frags : list (gostring * gostring)) :
  flat (a ++ s0) frags = a ++ flat s0 frags.
Proof.
  destruct frags as [|[f s] rest]; cbn [flat]; [reflexivity|].
  now rewrite <- app_assoc.
Qed.

Lemma bracket_free_app (a b : gostring) :
  bracket_free a -> bracket_free b -> bracket_free (a ++ b).
Proof.
  intros [A1 A2] [B1 B2]. split; rewrite in_app_iff; tauto.
Qed.

Lemma flat_ok_cons (s0 f s : gostring) (rest : list (gostring * gostring)) :
  flat_ok s0 ((f, s) :: rest) ->
  bracket_free s0 /\ bracket_free f /\ bracket_free s /\ flat_ok s rest.
Proof.
  intros [H0 H]. inversion H as [|x l [Hf Hs] Hrest]; subst.
  cbn in Hf, Hs. repeat split; try apply H0; try apply Hf; try apply Hs; auto.
Qed.

Lemma flat_leftmost_pair (s0 f s : gostring)
    (rest : list (gostring * gostring)) :
  flat_ok s0 ((f, s) :: rest) -> leftmost_pair s0 f.
Proof.
  intros H. apply flat_ok_cons in H as ([A B] & [C D] & _).
  repeat split; assumption.
Qed.

Lemma unbracket_app (a b : gostring) :
  unbracket (a ++ b) = unbracket a ++ unbracket b.
Proof. apply filter_app. Qed.

Lemma unbracket_free (s : gostring) : bracket_free s -> unbracket s = s.
Proof.
  intros [H1 H2]. unfold unbracket.
  induction s as [|c s IH]; [reflexivity|]. cbn [filter].
  assert (E : isBracket c = false).
  { unfold isBracket. apply orb_false_iff. split; apply ascii_eqb_neq;
      intros ->; [apply H1|apply H2]; now left. }
  rewrite E. cbn. f_equal. apply IH; intros ?; [apply H1|apply H2]; now right.
Qed.

Lemma unbracket_flat (s0 : gostring) (frags : list (gostring * gostring)) :
  flat_ok s0 frags ->
  unbracket (flat s0 frags)
  = s0 ++ concat (map (fun fs => fst fs ++ snd fs) frags).
Proof.
  revert s0; induction frags as [|[f s] rest IH]; intros s0 H.
  - cbn. rewrite app_nil_r. apply unbracket_free, H.
  - apply flat_ok_cons in H as (H0 & Hf & Hs & Hrest).
    cbn [flat map concat fst snd].
    rewrite unbracket_app, (unbracket_free s0 H0).
    change ("[" :: f ++ "]" :: flat s rest)
      with (["["] ++ f ++ ["]"] ++ flat s rest).
    rewrite !unbracket_app, (unbracket_free f Hf), (IH s Hrest).
    cbn. now rewrite <- app_assoc.
Qed.

(** A placeholder has no bracket in it: it is still there when the
    brackets of the text are removed. *)
Lemma has_placeholder_unbracket (text : gostring) :
  has_placeholder text -> has_placeholder (unbracket text).
Proof.
  intros (pre & name & post & -> & Hne & Hall).
  exists (unbracket pre), name, (unbracket post). split; [|auto].
  rewrite !unbracket_app.
  change (unbracket (str "{{")) with (str "{{").
  change (unbracket (str "}}")) with (str "}}").
  do 2 f_equal.
  replace (unbracket name) with name; [reflexivity|].
  symmetry. unfold unbracket. apply forallb_filter_id.
  apply forallb_forall. intros c Hc.
  rewrite Forall_forall in Hall. specialize (Hall c Hc).
  unfold isBracket. apply negb_true_iff, orb_false_iff.
  split; apply ascii_eqb_neq; intros ->; discriminate.
Qed.

(** A placeholder in a part of a flat text is in the text. *)
Lemma has_placeholder_flat_head (s0 : gostring)
    (frags : list (gostring * gostring)) :
  has_placeholder s0 -> has_placeholder (flat s0 frags).
Proof.
  intros H. destruct frags as [|[f s] rest]; cbn [flat]; [assumption|].
  apply (has_placeholder_app [] s0 _ H).
Qed.

Lemma has_placeholder_flat_literal (s0 : gostring)
    (frags : list (gostring * gostring)) :
  Exists (fun fs => has_placeholder (snd fs)) frags ->
  has_placeholder (flat s0 frags).
Proof.
  revert s0; induction frags as [|[f s] rest IH]; intros s0 H;
    inversion H; subst; cbn [flat].
  - change (s0 ++ "[" :: f ++ "]" :: flat s rest)
      with (s0 ++ "[" :: f ++ ["]"] ++ flat s rest).
    replace (s0 ++ "[" :: f ++ ["]"] ++ flat s rest)
      with ((s0 ++ "[" :: f ++ ["]"]) ++ flat s rest ++ [])
      by (rewrite app_nil_r, <- !app_assoc; cbn; now rewrite <- !app_assoc).
    apply has_placeholder_app. now apply has_placeholder_flat_head.
  - replace (s0 ++ "[" :: f ++ "]" :: flat s rest)
      with ((s0 ++ "[" :: f ++ ["]"]) ++ flat s rest ++ [])
      by (rewrite app_nil_r, <- !app_assoc; cbn; now rewrite <- !app_assoc).
    apply has_placeholder_app. now apply IH.
Qed.

Lemma has_placeholder_flat_fragment (s0 : gostring)
    (frags : list (gostring * gostring)) :
  Exists (fun fs => has_placeholder (fst fs)) frags ->
  has_placeholder (flat s0 frags).
Proof.
  revert s0; induction frags as [|[f s] rest IH]; intros s0 H;
    inversion H; subst; cbn [flat].
  - replace (s0 ++ "[" :: f ++ "]" :: flat s rest)
      with ((s0 ++ ["["]) ++ f ++ "]" :: flat s rest)
      by (now rewrite <- !app_assoc).
    now apply has_placeholder_app.
  - replace (s0 ++ "[" :: f ++ "]" :: flat s rest)
      with ((s0 ++ "[" :: f ++ ["]"]) ++ flat s rest ++ [])
      by (rewrite app_nil_r, <- !app_assoc; cbn; now rewrite <- !app_assoc).
    apply has_placeholder_app. now apply IH.
Qed.

(** While a placeholder stays in a literal segment every fragment is
    deleted, and the completeness check fails. *)
Lemma optional_flat_required (os : OS) (frags : list (gostring * gostring)) :
  forall s0 : gostring,
    flat_ok s0 frags ->
    has_placeholder s0 \/ Exists (fun fs => has_placeholder (snd fs)) frags ->
    optional os (flat s0 frags) = (literals s0 frags, Some ErrIncomplete).
Proof.
  induction frags as [|[f s] rest IH]; intros s0 Hok Hp.
  - destruct Hp as [Hp|Hp]; [|inversion Hp].
    cbn [flat]. unfold literals. cbn. rewrite app_nil_r.
    rewrite optional_no_open by apply Hok.
    now apply optional_tail_incomplete.
  - cbn [flat]. rewrite optional_pair by (eapply flat_leftmost_pair; eassumption).
    assert (M : pmatch_MatchString (s0 ++ "[" :: f ++ "]" :: flat s rest)
                = true).
    { apply pmatch_MatchString_spec.
      change (has_placeholder (flat s0 ((f, s) :: rest))).
      destruct Hp as [Hp|Hp].
      - now apply has_placeholder_flat_head.
      - now apply has_placeholder_flat_literal. }
    rewrite M, <- flat_app.
    apply flat_ok_cons in Hok as (H0 & Hf & Hs & Hrest).
    rewrite IH.
    + unfold literals. cbn. now rewrite <- app_assoc.
    + split; [now apply bracket_free_app|apply Hrest].
    + destruct Hp as [Hp|Hp].
      * left. apply (has_placeholder_app [] s0 s Hp).
      * inversion Hp; subst.
        -- left. cbn in *. rewrite <- (app_nil_r s).
           now apply (has_placeholder_app s0 s []).
        -- now right.
Qed.

(** Without a placeholder in the text bare of its brackets, every
    pair of brackets is removed and its content kept. *)
Lemma optional_flat_keep (os : OS) (frags : list (gostring * gostring)) :
  forall s0 : gostring,
    flat_ok s0 frags ->
    ~ has_placeholder (unbracket (flat s0 frags)) ->
    optional os (flat s0 frags) = optional_tail os (unbracket (flat s0 frags)).
Proof.
  induction frags as [|[f s] rest IH]; intros s0 Hok Hp.
  - cbn [flat]. rewrite (unbracket_free s0) by apply Hok.
    apply optional_no_open, Hok.
  - assert (M : pmatch_MatchString (flat s0 ((f, s) :: rest)) = false).
    { destruct (pmatch_MatchString _) eqn:E; [|reflexivity].
      apply pmatch_MatchString_spec, has_placeholder_unbracket in E.
      contradiction. }
    assert (U : unbracket (flat s0 ((f, s) :: rest))
                = unbracket (flat (s0 ++ f ++ s) rest)).
    { pose proof Hok as Hok'.
      apply flat_ok_cons in Hok' as (H0 & Hf & Hs & [_ Hrest]).
      rewrite !unbracket_flat; auto.
      - cbn. now rewrite <- !app_assoc.
      - split; [|assumption].
        apply bracket_free_app; [|apply bracket_free_app]; assumption. }
    rewrite U in *.
    cbn [flat] in *. rewrite optional_pair by (eapply flat_leftmost_pair; eassumption).
    rewrite M.
    replace (s0 ++ f ++ flat s rest) with (flat (s0 ++ f ++ s) rest)
      by (now rewrite app_assoc, flat_app, <- app_assoc).
    apply flat_ok_cons in Hok as (H0 & Hf & Hs & [_ Hrest]).
    apply IH; [|assumption].
    split; [|assumption].
    apply bracket_free_app; [|apply bracket_free_app]; assumption.
Qed.

(** Fragments up to one that holds a placeholder are deleted. *)
Lemma optional_flat_delete (os : OS) (dels : list (gostring * gostring)) :
  forall (s0 f s : gostring) (keeps : list (gostring * gostring)),
    flat_ok s0 (dels ++ (f, s) :: keeps) ->
    has_placeholder f ->
    optional os (flat s0 (dels ++ (f, s) :: keeps))
    = optional os (flat (literals s0 dels ++ s) keeps).
Proof.
  induction dels as [|[f' s'] dels IH]; intros s0 f s keeps Hok Hp.
  - cbn [app flat]. unfold literals. cbn [map concat]. rewrite app_nil_r.
    rewrite optional_pair by (eapply flat_leftmost_pair; eassumption).
    assert (M : pmatch_MatchString (s0 ++ "[" :: f ++ "]" :: flat s keeps)
                = true).
    { apply pmatch_MatchString_spec.
      apply (has_placeholder_flat_fragment s0 ((f, s) :: keeps)).
      now left. }
    now rewrite M, flat_app.
  - cbn [app flat].
    rewrite optional_pair by (eapply flat_leftmost_pair; eassumption).
    assert (M : pmatch_MatchString
                  (s0 ++ "[" :: f' ++ "]" :: flat s' (dels ++ (f, s) :: keeps))
                = true).
    { apply pmatch_MatchString_spec.
      apply (has_placeholder_flat_fragment s0
               ((f', s') :: dels ++ (f, s) :: keeps)).
      right. apply Exists_app. right. now left. }
    rewrite M, <- flat_app.
    apply flat_ok_cons in Hok as (H0 & Hf & Hs & [_ Hrest]).
    rewrite IH; auto.
    + unfold literals. cbn [map concat snd]. now rewrite <- !app_assoc.
    + split; [now apply bracket_free_app|assumption].
Qed.

(** ** Malformed brackets *)



(** A ["]"] with no ["["] in the text is no error: the loop stops at
    once. *)
Lemma optional_stray_close (os : OS) (text : gostring) :
  ~ In "[" text -> In "]" text -> ~ has_placeholder text ->
  ~ In "$" text -> ~ In "*" text ->
  optional os text = (text, None).
Proof.
  intros H _ Hp Hd Hs. rewrite optional_no_open by assumption.
  now apply optional_tail_plain.
Qed.





(** ** Optional fragments *)



(** C4, as the code has it.  The text after the substitution has
    matched, non-nested brackets.  (1) An upper-case placeholder left
    outside the fragments: incomplete parameters.  (2) Upper-case
    placeholders left in fragments only, [f] the last such fragment:
    the fragments up to [f] are dropped, those after it lose their
    brackets, and the rendering goes on to the expansion of
    environment variables and globs; without ["$"] and ["*"] it
    succeeds with that text.  (3) The scenario of the test. *)
Theorem Render_required_or_optional :
  (forall os c params s0 frags,
      substitute (Params c) params = flat s0 frags ->
      flat_ok s0 frags ->
      has_placeholder s0
      \/ Exists (fun fs => has_placeholder (snd fs)) frags ->
      Render os c params = (literals s0 frags, Some ErrIncomplete))
  /\ (forall os c params s0 dels f s keeps,
         substitute (Params c) params = flat s0 (dels ++ (f, s) :: keeps) ->
         flat_ok s0 (dels ++ (f, s) :: keeps) ->
         has_placeholder f ->
         ~ has_placeholder (unbracket (flat (literals s0 dels ++ s) keeps)) ->
         Render os c params
         = optional_tail os (unbracket (flat (literals s0 dels ++ s) keeps))
         /\ (~ In "$" (flat (literals s0 dels ++ s) keeps) ->
             ~ In "*" (flat (literals s0 dels ++ s) keeps) ->
             Render os c params
             = (unbracket (flat (literals s0 dels ++ s) keeps), None)))
  /\ (forall os,
         Render os (command "/bin/ls" "-l {{WHAT}} [{{EVER}}]")
           [(str "EVER", str "-r")]
         = (str "-l {{WHAT}} ", Some ErrIncomplete)).
Proof.
  split; [|split].
  - intros os c params s0 frags E Hok Hp. unfold Render. rewrite E.
    now apply optional_flat_required.
  - intros os c params s0 dels f s keeps E Hok Hp Hn. unfold Render.
    rewrite E, optional_flat_delete by assumption.
    assert (Hok' : flat_ok (literals s0 dels ++ s) keeps).
    { destruct Hok as [H0 Hall]. apply Forall_app in Hall as [Hd Hk].
      inversion Hk as [|x l [_ Hs] Hkeeps]; subst. cbn in Hs.
      split; [|assumption].
      apply bracket_free_app; [|assumption]. unfold literals.
      apply bracket_free_app; [assumption|].
      clear - Hd. induction dels as [|[f' s'] dels IH]; cbn.
      - split; intros [].
      - inversion Hd as [|x l [_ Hs'] Hd']; subst.
        apply bracket_free_app; [exact Hs'|now apply IH]. }
    rewrite optional_flat_keep by assumption.
    split; [reflexivity|].
    intros Hd Hs. apply optional_tail_plain; [assumption| |].
    + intros Hin. apply Hd. apply filter_In in Hin. tauto.
    + intros Hin. apply Hs. apply filter_In in Hin. tauto.
  - intros os. reflexivity.
Qed.

Lemma Render_required_or_optional_witness :
  (substitute (str "-l {{WHAT}} [{{EVER}}]") [(str "EVER", str "-r")]
   = flat (str "-l {{WHAT}} ") [(str "-r", [])]
   /\ Render os_repo (command "/bin/ls" "-l {{WHAT}} [{{EVER}}]")
        [(str "EVER", str "-r")]
      = (str "-l {{WHAT}} ", Some ErrIncomplete))
  /\ (substitute (str "-l {{WHAT}} [{{EVER}}]") [(str "WHAT", str "-r")]
      = flat (str "-l -r ") [(str "{{EVER}}", [])]
      /\ Render os_repo (command "/bin/ls" "-l {{WHAT}} [{{EVER}}]")
           [(str "WHAT", str "-r")]
         = (str "-l -r ", None)).
Proof.
  split; (split; [reflexivity|]).
  - apply (proj1 Render_required_or_optional os_repo
             (command "/bin/ls" "-l {{WHAT}} [{{EVER}}]")
             [(str "EVER", str "-r")] (str "-l {{WHAT}} ") [(str "-r", [])]).
    + reflexivity.
    + repeat split; try absent.
      repeat constructor; absent.
    + left. exists (str "-l "), (str "WHAT"), (str " ").
      split; [reflexivity|]. split; [discriminate|]. repeat constructor.
  - apply (proj1 (proj2 Render_required_or_optional) os_repo
             (command "/bin/ls" "-l {{WHAT}} [{{EVER}}]")
             [(str "WHAT", str "-r")] (str "-l -r ") [] (str "{{EVER}}")
             [] []).
    + reflexivity.
    + repeat split; try absent.
      repeat constructor; absent.
    + exists [], (str "EVER"), [].
      split; [reflexivity|]. split; [discriminate|]. repeat constructor.
    + intros H. apply pmatch_MatchString_spec in H. discriminate.
    + absent.
    + absent.
Defined.

(** C4 as stated fails for a placeholder whose name is not made of
    upper-case letters: no parameter is supplied for [{{what}}], and
    the rendering succeeds.  It fails as well when the brackets are
    malformed: the syntax error comes first. *)
Lemma Render_lowercase_not_required :
  Render os_repo (command "/bin/ls" "-l {{what}}") []
  = (str "-l {{what}}", None)
  /\ Render os_repo (command "/bin/ls" "-l {{WHAT}} [") []
     = (str "-l {{WHAT}} [", Some ErrSyntaxError).
Proof. split; reflexivity. Qed.

(** ** Names that are not upper-case *)

Lemma first_occurrence_unique (c : ascii) (l1 l2 r1 r2 : gostring) :
  ~ In c l1 -> ~ In c l2 -> l1 ++ c :: r1 = l2 ++ c :: r2 ->
  l1 = l2 /\ r1 = r2.
Proof.
  revert l2; induction l1 as [|a l1 IH]; intros l2 H1 H2 E.
  - destruct l2 as [|b l2].
    + injection E as ->. auto.
    + injection E as <- _. exfalso; apply H2; now left.
  - destruct l2 as [|b l2].
    + injection E as -> _. exfalso; apply H1; now left.
    + injection E as -> E.
      destruct (IH l2) as [-> ->]; auto;
        intros ?; [apply H1|apply H2]; now right.
Qed.

(** A name with a character that is not an upper-case letter, and
    without braces, makes no placeholder of the pattern. *)
Lemma not_upper_no_placeholder (name : gostring) :
  Exists (fun c => isUpper c = false) name ->
  ~ In "{" name -> ~ In "}" name ->
  ~ has_placeholder (str "{{" ++ name ++ str "}}").
Proof.
  intros Hex Ho Hc (pre & nm & post & E & Hne & Hall).
  assert (Hup : forall c, In c nm -> c <> "{" /\ c <> "}").
  { intros c Hin. rewrite Forall_forall in Hall. specialize (Hall c Hin).
    split; intros ->; discriminate. }
  assert (Epre : pre = []).
  { destruct pre as [|a pre]; [reflexivity|]. exfalso.
    cbn in E. injection E as <- E.
    destruct pre as [|b pre].
    - cbn in E. injection E as E.
      destruct name as [|d name]; cbn in E; [discriminate|].
      injection E as -> _. apply Ho. now left.
    - cbn in E. injection E as <- E.
      assert (Hin : In "{" (name ++ ["}"; "}"])).
      { rewrite E. apply in_or_app. right. now left. }
      apply in_app_or in Hin as [Hin|Hin]; [contradiction|].
      cbn in Hin. intuition discriminate. }
  subst pre. cbn in E. injection E as E.
  change (str "}}" ++ post) with ("}" :: "}" :: post) in E.
  change (str "}}") with ("}" :: ["}"]) in E.
  apply first_occurrence_unique in E as [-> _]; auto.
  - apply Exists_exists in Hex as (c & Hin & Hc').
    rewrite Forall_forall in Hall. specialize (Hall c Hin). congruence.
  - intros Hin. now apply (Hup "}").
Qed.

(** C10, as the code has it.  (1) The optional-fragment rule and the
    completeness check see exactly the substrings [{{] + upper-case
    letters + [}}]; a name without braces that has another character
    makes none.  (2) When the text after the substitution has
    matched, non-nested brackets and no such substring once its
    brackets are removed, no fragment is deleted and the completeness
    check passes: the rendering goes on with the text bare of its
    brackets, and returns it as it is when it has no ["$"] and no
    ["*"]. *)
Theorem placeholders_upper_case_only :
  (forall text, pmatch_MatchString text = true <-> has_placeholder text)
  /\ (forall name,
         Exists (fun c => isUpper c = false) name ->
         ~ In "{" name -> ~ In "}" name ->
         pmatch_MatchString (str "{{" ++ name ++ str "}}") = false)
  /\ (forall os c params s0 frags,
         substitute (Params c) params = flat s0 frags ->
         flat_ok s0 frags ->
         ~ has_placeholder (unbracket (flat s0 frags)) ->
         Render os c params = optional_tail os (unbracket (flat s0 frags))
         /\ (~ In "$" (flat s0 frags) -> ~ In "*" (flat s0 frags) ->
             Render os c params = (unbracket (flat s0 frags), None))).
Proof.
  split; [exact pmatch_MatchString_spec|split].
  - intros name Hex Ho Hc.
    destruct (pmatch_MatchString _) eqn:E; [|reflexivity].
    apply pmatch_MatchString_spec in E.
    now apply not_upper_no_placeholder in E.
  - intros os c params s0 frags E Hok Hn. unfold Render.
    rewrite E, optional_flat_keep by assumption.
    split; [reflexivity|].
    intros Hd Hs. apply optional_tail_plain; [assumption| |].
    + intros Hin. apply Hd. apply filter_In in Hin. tauto.
    + intros Hin. apply Hs. apply filter_In in Hin. tauto.
Qed.

Lemma placeholders_upper_case_only_witness :
  (Exists (fun c => isUpper c = false) (str "foo")
   /\ pmatch_MatchString (str "{{foo}}") = false)
  /\ (substitute (str "-l [{{foo}}] {{bar9}}") []
      = flat (str "-l ") [(str "{{foo}}", str " {{bar9}}")]
      /\ Render os_repo (command "/bin/ls" "-l [{{foo}}] {{bar9}}") []
         = (str "-l {{foo}} {{bar9}}", None)).
Proof.
  split.
  - assert (H : Exists (fun c => isUpper c = false) (str "foo"))
      by (left; reflexivity).
    split; [exact H|].
    apply (proj1 (proj2 placeholders_upper_case_only) (str "foo") H);
      absent.
  - split; [reflexivity|].
    apply (proj2 (proj2 placeholders_upper_case_only) os_repo
             (command "/bin/ls" "-l [{{foo}}] {{bar9}}") []
             (str "-l ") [(str "{{foo}}", str " {{bar9}}")]).
    + reflexivity.
    + repeat split; try absent.
      repeat constructor; absent.
    + intros H. apply pmatch_MatchString_spec in H. discriminate.
    + absent.
    + absent.
Defined.

(** C10 as stated fails for a name with brackets in it: the bracket
    loop makes [{{A}}] of [{{[A]}}], and the completeness check
    refuses it. *)
Lemma Render_bracket_name_incomplete :
  Render os_repo (command "/bin/ls" "{{[A]}}") []
  = (str "{{A}}", Some ErrIncomplete).
Proof. reflexivity. Qed.

(** ** [strings.Replace] *)

Lemma HasPrefix_nil (old : gostring) : old <> [] -> HasPrefix [] old = false.
Proof. destruct old; [congruence|reflexivity]. Qed.

Lemma replace_scan_skip (x s old new : gostring) :
  replace_scan (length x) (x ++ s) old new = replace_scan 0 s old new.
Proof. induction x as [|c x IH]; [reflexivity|exact IH]. Qed.

Lemma Replace_scan (s old new : gostring) :
  old <> [] -> Replace s old new = replace_scan 0 s old new.
Proof. destruct old; [congruence|reflexivity]. Qed.

Lemma occurs_at_nil (old : gostring) (k : nat) :
  old <> [] -> ~ occurs_at old k [].
Proof.
  intros Hne (a & b & E & _). symmetry in E.
  apply app_eq_nil in E as [_ E]. apply app_eq_nil in E as [E _]. contradiction.
Qed.

Lemma occurs_at_cons (old : gostring) (c : ascii) (s : gostring) (k : nat) :
  occurs_at old k (c :: s) ->
  match k with
  | O => HasPrefix (c :: s) old = true
  | S k' => occurs_at old k' s
  end.
Proof.
  intros (a & b & E & L). destruct a as [|d a]; cbn in L; subst k.
  - cbn in E. rewrite E. apply HasPrefix_app.
  - injection E as -> ->. now exists a, b.
Qed.

(** [Replace] against the occurrences of [old]: either there is none
    and the text is unchanged, or the leftmost one is replaced and the
    scan goes on behind it. *)
Lemma Replace_leftmost (old new : gostring) :
  old <> [] ->
  forall s : gostring,
    (Replace s old new = s /\ forall k, ~ occurs_at old k s)
    \/ (exists a b,
           s = a ++ old ++ b
           /\ (forall k, (k < length a)%nat -> ~ occurs_at old k s)
           /\ Replace s old new = a ++ new ++ Replace b old new).
Proof.
  intros Hne s. rewrite Replace_scan by assumption.
  induction s as [|c s IH].
  - left. split; [reflexivity|]. intros k. now apply occurs_at_nil.
  - cbn [replace_scan]. destruct (HasPrefix (c :: s) old) eqn:P.
    + right. apply HasPrefix_inv in P as [b E].
      exists [], b. split; [exact E|]. split; [intros k Hk; inversion Hk|].
      cbn [app]. f_equal. rewrite Replace_scan by assumption.
      destruct old as [|d old']; [congruence|].
      injection E as -> ->.
      replace (length (d :: old') - 1)%nat with (length old')
        by (cbn [length]; lia).
      apply replace_scan_skip.
    + destruct IH as [[E Hno]|(a & b & E & Hleft & R)].
      * left. split; [now rewrite E|].
        intros [|k] H; apply occurs_at_cons in H; [congruence|].
        now apply (Hno k).
      * right. exists (c :: a), b. split; [now rewrite E|]. split.
        -- intros [|k] Hk H; apply occurs_at_cons in H; [congruence|].
           apply (Hleft k); [cbn in Hk; lia|assumption].
        -- rewrite R. rewrite (Replace_scan b) by assumption. reflexivity.
Qed.

Lemma Replace_replaced_all (old new : gostring) :
  old <> [] ->
  forall s : gostring, replaced_all old new s (Replace s old new).
Proof.
  intros Hne s.
  remember (length s) as n eqn:Hn.
  revert s Hn. induction n as [n IH] using lt_wf_ind. intros s Hn.
  destruct (Replace_leftmost old new Hne s)
    as [[E Hno]|(a & b & E & Hleft & R)].
  - rewrite E. now constructor.
  - rewrite R. subst s. constructor; [assumption|].
    apply (IH (length b)); [|reflexivity].
    subst n. rewrite !length_app.
    destruct old; [congruence|cbn [length]; lia].
Qed.

Lemma app_same_length (a a' x y : gostring) :
  length a = length a' -> a ++ x = a' ++ y -> a = a' /\ x = y.
Proof.
  revert a'; induction a as [|c a IH]; intros [|c' a'] L E;
    try discriminate; [now split|].
  injection E as -> E. injection L as L.
  destruct (IH a' L E) as [-> ->]. now split.
Qed.

Lemma replaced_all_deterministic (old new s r1 r2 : gostring) :
  replaced_all old new s r1 -> replaced_all old new s r2 -> r1 = r2.
Proof.
  intros H1. revert r2.
  induction H1 as [s Hno|a b b' Hleft Hb IH]; intros r2 H2.
  - inversion H2 as [s' Hno'|a' b2 b2' Hleft' Hb2]; subst; [reflexivity|].
    exfalso. apply (Hno (length a')). now exists a', b2.
  - inversion H2 as [s' Hno'|a' b2 b2' Hleft' Hb2 E]; subst.
    + exfalso. apply (Hno' (length a)). now exists a, b.
    + assert (L : length a = length a').
      { destruct (Nat.lt_trichotomy (length a) (length a')) as [L|[L|L]];
          [|assumption|]; exfalso.
        - apply (Hleft' (length a) L). rewrite E. now exists a, b.
        - apply (Hleft (length a') L). rewrite <- E. now exists a', b2. }
      destruct (app_same_length a' a (old ++ b2) (old ++ b))
        as [-> Eb]; [now symmetry|assumption|]. apply app_inv_head in Eb. subst b2.
      f_equal. f_equal. now apply IH.
Qed.

(** ** Parameter substitution *)

Lemma render_param_named (text name value : gostring) :
  name <> [] ->
  render_param text (name, value)
  = Replace text (str "{{" ++ name ++ str "}}") value.
Proof. destruct name; [congruence|reflexivity]. Qed.

Lemma render_param_bare (text value : gostring) :
  render_param text ([], value) = text ++ str " " ++ value.
Proof. reflexivity. Qed.

Lemma substitute_substituted (params : list Param) :
  forall text, substituted text params (substitute text params).
Proof.
  induction params as [|[name value] params IH]; intros text.
  - constructor.
  - cbn [substitute fold_left]. destruct name as [|c name].
    + rewrite render_param_bare. constructor. apply IH.
    + apply substituted_named
        with (text' := render_param text (c :: name, value)).
      * discriminate.
      * rewrite render_param_named by discriminate.
        apply Replace_replaced_all. discriminate.
      * apply IH.
Qed.

Lemma substituted_deterministic (text : gostring) (params : list Param)
    (t1 t2 : gostring) :
  substituted text params t1 -> substituted text params t2 -> t1 = t2.
Proof.
  intros H1. revert t2.
  induction H1 as [text|text name value text' text'' params Hne Hr Hs IH
                  |text value text'' params Hs IH]; intros t2 H2.
  - now inversion H2.
  - inversion H2; subst; [|congruence].
    apply IH.
    match goal with
    | H : replaced_all _ _ text ?x |- substituted text' _ _ =>
        now rewrite (replaced_all_deterministic _ _ _ _ _ Hr H)
    end.
  - inversion H2; subst; [congruence|]. now apply IH.
Qed.

Lemma substitute_bare (values : list gostring) :
  forall text,
    substitute text (map (fun v => ([], v)) values)
    = text ++ concat (map (fun v => str " " ++ v) values).
Proof.
  induction values as [|v values IH]; intros text; cbn [map concat].
  - cbn. now rewrite app_nil_r.
  - cbn [substitute fold_left]. rewrite render_param_bare.
    change (fold_left render_param ?l ?t) with (substitute t l).
    rewrite IH. now rewrite <- !app_assoc.
Qed.

(** A pattern [{{NAME}}] whose name has no brace does not overlap
    itself: an instance that starts inside [s], in front of another
    instance, lies inside [s]. *)
Lemma placeholder_no_overlap (name s r a b : gostring) :
  ~ In "{" name ->
  s ++ (str "{{" ++ name ++ str "}}") ++ r
  = a ++ (str "{{" ++ name ++ str "}}") ++ b ->
  (length a < length s)%nat ->
  occurs_at (str "{{" ++ name ++ str "}}") (length a) s.
Proof.
  intros Ho E L.
  set (pat := str "{{" ++ name ++ str "}}") in *.
  apply app_eq_app in E as [x [[Es Ex]|[Ea Ex]]].
  2:{ subst a. rewrite length_app in L. lia. }
  subst s. rewrite length_app in L.
  assert (Hx : x <> []) by (intros ->; cbn in L; lia).
  symmetry in Ex. apply app_eq_app in Ex as [y [[Ex Ey]|[Ep Ey]]].
  { (* the instance ends inside [x] *)
    subst x. exists a, y. split; [reflexivity|reflexivity]. }
  (* [pat = x ++ y] and [y] is a prefix of [pat ++ r] *)
  destruct y as [|y0 y].
  { rewrite app_nil_r in Ep. subst x. exists a, [].
    split; [now rewrite app_nil_r|reflexivity]. }
  exfalso.
  subst pat. change (str "{{") with ["{"; "{"] in *.
  change (str "}}") with ["}"; "}"] in *.
  cbn [app] in Ep, Ey.
  injection Ey as Ey0 Ey. subst y0.
  destruct x as [|x0 [|x1 x]]; [congruence| |].
  - cbn [app] in Ep. injection Ep as _ Ep.
    (* x = "{": y is the rest of the pattern *)
    rewrite <- Ep in Ey. destruct name as [|n0 name].
    + cbn in Ey. discriminate.
    + cbn in Ey. injection Ey as Ey _. apply Ho. left. now symmetry.
  - cbn [app] in Ep. injection Ep as _ _ Ep.
    assert (Hin : In "{" (name ++ ["}"; "}"])).
    { rewrite Ep. apply in_or_app. right. now left. }
    apply in_app_or in Hin as [Hin|Hin]; [contradiction|].
    cbn in Hin. intuition discriminate.
Qed.

(** For such a name, a text cut at the instances of [{{NAME}}]: each
    one is replaced. *)
Lemma render_param_every_instance (name value : gostring)
    (segs : list gostring) :
  name <> [] -> ~ In "{" name ->
  (forall s, In s segs ->
             forall k, ~ occurs_at (str "{{" ++ name ++ str "}}") k s) ->
  render_param (Join segs (str "{{" ++ name ++ str "}}")) (name, value)
  = Join segs value.
Proof.
  intros Hne Ho Hsegs. rewrite render_param_named by assumption.
  set (pat := str "{{" ++ name ++ str "}}") in *.
  assert (Hp : pat <> []) by discriminate.
  induction segs as [|s segs IH]; [reflexivity|].
  destruct segs as [|s' segs].
  - cbn [Join].
    destruct (Replace_leftmost pat value Hp s)
      as [[E _]|(a & b & E & _)]; [exact E|].
    exfalso. apply (Hsegs s (or_introl eq_refl) (length a)).
    now exists a, b.
  - change (Join (s :: s' :: segs) pat)
      with (s ++ pat ++ Join (s' :: segs) pat).
    change (Join (s :: s' :: segs) value)
      with (s ++ value ++ Join (s' :: segs) value).
    destruct (Replace_leftmost pat value Hp
                (s ++ pat ++ Join (s' :: segs) pat))
      as [[_ Hno]|(a & b & E & Hleft & R)].
    { exfalso. apply (Hno (length s)).
      now exists s, (Join (s' :: segs) pat). }
    assert (L : length a = length s).
    { destruct (Nat.lt_trichotomy (length a) (length s)) as [L|[L|L]];
        [|assumption|]; exfalso.
      - apply (Hsegs s (or_introl eq_refl) (length a)).
        apply (placeholder_no_overlap name s (Join (s' :: segs) pat) a b);
          assumption.
      - apply (Hleft (length s) L).
        now exists s, (Join (s' :: segs) pat). }
    destruct (app_same_length a s (pat ++ b)
                (pat ++ Join (s' :: segs) pat)) as [-> Eb];
      [assumption|now symmetry|].
    apply app_inv_head in Eb. subst b. rewrite R.
    do 2 f_equal. apply IH.
    intros t Ht. apply Hsegs. now right.
Qed.

(** C8: [Render] takes the parameters in the order supplied; for a
    named one every instance of [{{NAME}}] in the text (from the left,
    not overlapping) is replaced by the value, for a nameless one a
    space and the value are appended; the text so described is the one
    [Render] hands to [optional].  Nameless parameters alone append
    their values in the order supplied.  For a name without ["{"],
    whose instances cannot overlap, a template cut at the instances
    has every one of them replaced. *)
Theorem Render_substitution :
  (forall os c params,
      exists text,
        substituted (Params c) params text
        /\ (forall text', substituted (Params c) params text' -> text' = text)
        /\ Render os c params = optional os text)
  /\ (forall os c values,
         Render os c (map (fun v => ([], v)) values)
         = optional os
             (Params c ++ concat (map (fun v => str " " ++ v) values)))
  /\ (forall os c name value segs,
         name <> [] -> ~ In "{" name ->
         Params c = Join segs (str "{{" ++ name ++ str "}}") ->
         (forall s, In s segs ->
            forall k, ~ occurs_at (str "{{" ++ name ++ str "}}") k s) ->
         Render os c [(name, value)] = optional os (Join segs value)).
Proof.
  split; [|split].
  - intros os c params. exists (substitute (Params c) params).
    split; [apply substitute_substituted|]. split; [|reflexivity].
    intros text' H.
    apply (substituted_deterministic _ _ _ _ H (substitute_substituted _ _)).
  - intros os c values. unfold Render. now rewrite substitute_bare.
  - intros os c name value segs Hne Ho E Hsegs. unfold Render.
    cbn [substitute fold_left]. rewrite E.
    now rewrite render_param_every_instance.
Qed.

Lemma Render_substitution_witness :
  (exists text,
      substituted (str "{{A}} x {{A}}")
        [(str "A", str "1"); ([], str "b"); ([], str "c")] text
      /\ text = str "1 x 1 b c"
      /\ Render os_repo (command "/bin/echo" "{{A}} x {{A}}")
           [(str "A", str "1"); ([], str "b"); ([], str "c")]
         = optional os_repo text)
  /\ (str "{{A}} x {{A}}" = Join [[]; str " x "; []] (str "{{" ++ str "A" ++ str "}}")
      /\ Render os_repo (command "/bin/echo" "{{A}} x {{A}}")
           [(str "A", str "1")]
         = optional os_repo (str "1 x 1")).
Proof.
  split.
  - destruct (proj1 Render_substitution os_repo
                (command "/bin/echo" "{{A}} x {{A}}")
                [(str "A", str "1"); ([], str "b"); ([], str "c")])
      as (text & Hs & Huniq & ER).
    exists text. split; [exact Hs|]. split; [|exact ER].
    symmetry. apply Huniq. apply substitute_substituted.
  - split; [reflexivity|].
    apply (proj2 (proj2 Render_substitution) os_repo
             (command "/bin/echo" "{{A}} x {{A}}") (str "A") (str "1")
             [[]; str " x "; []]).
    + discriminate.
    + absent.
    + reflexivity.
    + intros s Hs k (a & b & E & _).
      assert (Hin : In "{" s).
      { rewrite E. apply in_or_app. right. now left. }
      cbn in Hs. destruct Hs as [<-|[<-|[<-|[]]]];
        cbn in Hin; intuition discriminate.
Defined.

(** ** Glob tokens *)



Lemma glob_word_app (a b : gostring) :
  glob_word a -> glob_word b -> glob_word (a ++ b).
Proof. intros Ha Hb. apply Forall_app. now split. Qed.

(** Every match of [globs] is a ["*"] with class characters around
    it: one star each. *)
Lemma globs_scan_shape (s : gostring) :
  forall st, glob_state_ok st ->
  forall g, In g (globs_scan st s) ->
  exists a b, g = a ++ "*" :: b /\ glob_word a /\ glob_word b.
Proof.
  induction s as [|c s IH]; intros st Hst g Hg.
  - destruct st as [run|m]; cbn in Hg; [contradiction|].
    destruct Hg as [<-|[]]. exact Hst.
  - destruct st as [run|m]; cbn [globs_scan] in Hg.
    + destruct (Ascii.eqb c "*") eqn:E.
      * apply ascii_eqb_eq in E. subst c.
        apply (IH (AfterStar ("*" :: run))); [|assumption].
        exists (rev run), []. repeat split; [exact Hst|constructor].
      * destruct (isGlobChar c) eqn:G.
        -- apply (IH (BeforeStar (c :: run))); [|assumption].
           cbn. apply glob_word_app; [exact Hst|].
           constructor; [assumption|constructor].
        -- apply (IH (BeforeStar [])); [constructor|assumption].
    + destruct Hst as (a & b & Em & Ha & Hb).
      destruct (isGlobChar c) eqn:G.
      * apply (IH (AfterStar (c :: m))); [|assumption].
        exists a, (b ++ [c]). cbn [rev]. rewrite Em.
        repeat split; auto.
        -- now rewrite <- app_assoc.
        -- apply glob_word_app; [assumption|].
           constructor; [assumption|constructor].
      * destruct (Ascii.eqb c "*") eqn:E.
        -- destruct Hg as [<-|Hg]; [now exists a, b|].
           apply ascii_eqb_eq in E. subst c.
           apply (IH (AfterStar ["*"])); [|assumption].
           exists [], []. repeat split; constructor.
        -- destruct Hg as [<-|Hg]; [now exists a, b|].
           apply (IH (BeforeStar [])); [constructor|assumption].
Qed.







Lemma glob_loop_cons (os : OS) (g : gostring) (gs : list gostring)
    (text : gostring) :
  glob_loop os (g :: gs) text
  = match snd (Glob os g) with
    | Some e => (text, Some e)
    | None =>
        match fst (Glob os g) with
        | [] => (text, Some ErrNoSuchFile)
        | _ :: _ =>
            glob_loop os gs
              (Replace text g (Join (fst (Glob os g)) (str " ")))
        end
    end.
Proof.
  cbn [glob_loop]. destruct (Glob os g) as [[|f files] [e|]]; reflexivity.
Qed.




(** ** [strings.Fields] *)






(** ** The runner *)

Lemma build_attr_frame (w : World) (c : Command) (fr : Frame) :
  snd (build_attr w c fr) = fr.
Proof.
  unfold build_attr, bind, try, fail, ret.
  destruct (0 <? length (User c))%nat; [|reflexivity].
  destruct (negb (Getuid w =? 0)); [reflexivity|].
  destruct (user_Lookup w (User c)) as [u [e|]]; [reflexivity|]. cbn.
  destruct (ParseUint w u) as [uid [e|]]; reflexivity.
Qed.

(** [Runner] up to the start of the child: how it can come out. *)
Lemma start_cases (w : World) (sid : Z) (c : Command) (params : list Param) :
  match start w c params (frame0 sid) with
  | (inl _, fr) =>
      exists path text attr,
        LookPath w (Path c) = (path, None)
        /\ Render (w_os w) c params = (text, None)
        /\ StartProcess w path (Fields (cmdline path text)) attr = None
        /\ fr = {| fr_r := set_Started (Now_started w)
                             (set_SID (fst (nextID sid))
                                (set_Cmd (cmdline path text) Runtime0));
                   fr_sessionID := snd (nextID sid);
                   fr_spawn := Some (path, Fields (cmdline path text), attr) |}
  | (inr e, fr) =>
      fr_spawn fr = None
      \/ exists path text attr,
           LookPath w (Path c) = (path, None)
           /\ Render (w_os w) c params = (text, None)
           /\ StartProcess w path (Fields (cmdline path text)) attr = Some e
           /\ fr = {| fr_r := set_SID (fst (nextID sid))
                                (set_Cmd (cmdline path text) Runtime0);
                      fr_sessionID := snd (nextID sid);
                      fr_spawn :=
                        Some (path, Fields (cmdline path text), attr) |}
  end.
Proof.
  unfold start, bind.
  destruct (LookPath w (Path c)) as [path [e|]] eqn:EL;
    unfold try at 1; cbn [fst snd fail ret]; [now left|].
  destruct (Render (w_os w) c params) as [text [e|]] eqn:ER;
    unfold try at 1; cbn [fst snd fail ret]; [now left|].
  unfold modify at 1. cbn [fr_r fr_sessionID fr_spawn frame0].
  set (fr1 := {| fr_r := set_Cmd (cmdline path text) Runtime0;
                 fr_sessionID := sid; fr_spawn := None |}).
  assert (E1 : (if (0 <? length text)%nat
                then modify (fun r => set_Cmd (Cmd r ++ str " " ++ text) r)
                else ret tt)
                 {| fr_r := set_Cmd path Runtime0; fr_sessionID := sid;
                    fr_spawn := None |}
               = (inl tt, fr1)).
  { subst fr1. unfold cmdline. destruct (0 <? length text)%nat; reflexivity. }
  rewrite E1. clear E1.
  destruct (Pipe_err w) as [e|]; cbn [check fail ret]; [now left|].
  destruct (Pipe_out w) as [e|]; cbn [check fail ret]; [now left|].
  pose proof (build_attr_frame w c fr1) as EB.
  destruct (build_attr w c fr1) as [[attr|e] fr'] eqn:B; cbn in EB; subst fr';
    [|now left].
  unfold call_nextID, modify, get, call_StartProcess.
  cbn [fr_r fr_sessionID fr_spawn fr1 nextID fst snd].
  subst fr1. cbn [fr_r fr_sessionID fr_spawn].
  change (Cmd (set_SID (wrap64 (sid + 1))
                 (set_Cmd (cmdline path text) Runtime0)))
    with (cmdline path text).
  destruct (StartProcess w path (Fields (cmdline path text)) attr)
    as [e|] eqn:ES; cbn [check fail ret].
  - right. exists path, text, attr. repeat split; assumption.
  - exists path, text, attr. repeat split; assumption.
Qed.





(** ** Results and deliveries *)

Lemma Runner_sync_delivers_once (w : World) (sid : Z) (c : Command)
    (params : list Param) :
  Async c = false -> length (delivered (Runner w sid c params)) = 1%nat.
Proof.
  intros HA. unfold Runner, delivered.
  destruct (start w c params (frame0 sid)) as [[[]|e] fr]; [|reflexivity].
  rewrite HA. destruct (finisher w c (fr_r fr)) as [[out r'] sent].
  reflexivity.
Qed.

Lemma Runner_async_failure_delivers_once (w : World) (sid : Z) (c : Command)
    (params : list Param) (e : error) (fr : Frame) :
  start w c params (frame0 sid) = (inr e, fr) ->
  delivered (Runner w sid c params) = [fr_r fr].
Proof. intros H. unfold Runner, delivered. now rewrite H. Qed.

(** An asynchronous invocation that goes well through: the deferred
    function of [Runner] sends [r] as it is at the start of the
    child, and [finisher] sends it again when the child is done. *)
Lemma Runner_async_delivers_twice (w : World) (sid : Z) (c : Command)
    (params : list Param) (ps : ProcessState) :
  Async c = true ->
  child_starts w sid c params ->
  Wait w = Some ps ->
  snd (read_outOut w) = None -> snd (read_errOut w) = None ->
  length (delivered (Runner w sid c params)) = 2%nat.
Proof.
  intros HA [fr Hs] HW Ho He. unfold Runner, delivered. rewrite Hs, HA.
  unfold finisher. rewrite HW, Ho, He, HA. reflexivity.
Qed.

(** C2: an asynchronous invocation of [/bin/ls -l] in which every
    step succeeds.  The claim wants one delivery; two values are sent
    on the channel, the first with neither output nor exit code. *)
Theorem RunAsync_delivers_twice :
  delivered (RunAsync (world 0 (str "total 0", None)) 0
               (command "/bin/ls" "-l") [])
  = [ {| SID := 1; PID := 0; RC := 0; Cmd := str "/bin/ls -l";
         Stdout := []; Stderr := []; SystemTime := 0; UserTime := 0;
         Started := 100; Finished := 0 |};
      {| SID := 1; PID := 4242; RC := 0; Cmd := str "/bin/ls -l";
         Stdout := str "total 0"; Stderr := []; SystemTime := 0;
         UserTime := 5; Started := 100; Finished := 200 |} ].
Proof. reflexivity. Qed.

(** C7, as the code has it: a synchronous invocation by [Run] whose
    child starts and exits with status [n], and whose two pipes are
    read without an error, returns the status in [RC] and a nil
    error, whatever [n] is. *)
Theorem Run_exit_status (w : World) (sid : Z) (c : Command)
    (params : list Param) (ps : ProcessState) (n : Z) :
  Async c = false ->
  child_starts w sid c params ->
  Wait w = Some ps -> ps_Sys ps = Exited n ->
  snd (read_outOut w) = None -> snd (read_errOut w) = None ->
  exists r, Run w sid c params = Some (r, None) /\ RC r = n.
Proof.
  intros HA [fr Hs] HW Hn Ho He. unfold Run, Runner. rewrite Hs, HA.
  unfold finisher. rewrite HW, Ho, He.
  cbn [rr_outcome rr_sent]. eexists. split; [reflexivity|].
  cbn. now rewrite Hn.
Qed.

Lemma Run_exit_status_witness :
  child_starts (world 23 ([], None)) 0 (command "./failure" "") []
  /\ exists r,
       Run (world 23 ([], None)) 0 (command "./failure" "") []
       = Some (r, None)
       /\ RC r = 23.
Proof.
  assert (H : child_starts (world 23 ([], None)) 0
                (command "./failure" "") [])
    by (eexists; reflexivity).
  split; [exact H|].
  apply (Run_exit_status (world 23 ([], None)) 0 (command "./failure" "") []
           {| ps_Pid := 4242; ps_Sys := Exited 23; ps_UserTime := 5 |} 23);
    try reflexivity.
  exact H.
Defined.

(** C7 as stated fails when the pipe of the child's output cannot be
    read: the child has started and exited with status 1, [finisher]
    returns the error of [readString] before it comes to the exit
    status, and [Run] returns that error and [RC = 0].  It fails as
    well for a command with [Async] set: [Run] returns the record
    that [Runner] sends when it has started the child. *)
Lemma Run_read_error :
  (child_starts (world 1 ([], Some (ErrExternal "read |0: input/output error")))
     0 (command "/bin/false" "") []
   /\ Run (world 1 ([], Some (ErrExternal "read |0: input/output error")))
        0 (command "/bin/false" "") []
      = Some ({| SID := 1; PID := 0; RC := 0; Cmd := str "/bin/false";
                 Stdout := []; Stderr := []; SystemTime := 0; UserTime := 0;
                 Started := 100; Finished := 200 |},
              Some (ErrExternal "read |0: input/output error")))
  /\ (child_starts (world 1 ([], None)) 0
        (set_Async true (command "/bin/false" "")) []
      /\ Run (world 1 ([], None)) 0
           (set_Async true (command "/bin/false" "")) []
         = Some ({| SID := 1; PID := 0; RC := 0; Cmd := str "/bin/false";
                    Stdout := []; Stderr := []; SystemTime := 0;
                    UserTime := 0; Started := 100; Finished := 0 |},
                 None)).
Proof. split; (split; [eexists|]); reflexivity. Qed.

(** ** The session counter *)

Lemma wrap64_small (z : Z) : - 2 ^ 63 <= z < 2 ^ 63 -> wrap64 z = z.
Proof. intros H. unfold wrap64. rewrite Z.mod_small; lia. Qed.

(** A call that runs alone takes the lock, adds one, gives the lock
    back and returns the new value: [nextID]. *)
Lemma nextID_alone (sid : Z) :
  run_schedule [0; 0; 0; 0]%nat (start_calls sid 1)
  = Some {| shared := {| mtx := false; sessionID := snd (nextID sid) |};
            calls := [Returned (fst (nextID sid))] |}.
Proof. reflexivity. Qed.

(** Two calls one after the other return two values, the second one
    more than the first. *)
Lemma nextID_in_turn (sid : Z) :
  - 2 ^ 63 <= sid < 2 ^ 63 - 2 ->
  run_schedule [0; 0; 0; 0; 1; 1; 1; 1]%nat (start_calls sid 2)
  = Some {| shared := {| mtx := false; sessionID := sid + 2 |};
            calls := [Returned (sid + 1); Returned (sid + 2)] |}.
Proof.
  intros H.
  assert (E1 : wrap64 (sid + 1) = sid + 1) by (apply wrap64_small; lia).
  assert (E2 : wrap64 (sid + 1 + 1) = sid + 2)
    by (rewrite wrap64_small; lia).
  cbn. rewrite E1. cbn. rewrite E2. reflexivity.
Qed.

Lemma wrap64_succ (z : Z) : wrap64 (wrap64 z + 1) = wrap64 (z + 1).
Proof.
  unfold wrap64.
  replace ((z + 2 ^ 63) mod 2 ^ 64 - 2 ^ 63 + 1 + 2 ^ 63)
    with ((z + 2 ^ 63) mod 2 ^ 64 + 1) by lia.
  replace (z + 1 + 2 ^ 63) with (z + 2 ^ 63 + 1) by lia.
  now rewrite Z.add_mod_idemp_l by lia.
Qed.

Lemma count_set_nth (f : pc -> bool) (l : list pc) :
  forall (i : nat) (p p' : pc),
    nth_error l i = Some p ->
    (count f (set_nth i p' l) + (if f p then 1 else 0)
     = count f l + (if f p' then 1 else 0))%nat.
Proof.
  unfold count. induction l as [|q l IH]; intros [|i] p p' H;
    cbn in H; try discriminate.
  - injection H as ->. cbn [set_nth filter].
    destruct (f p), (f p'); cbn [length]; lia.
  - cbn [set_nth filter]. specialize (IH i p p' H).
    destruct (f q); cbn [length]; lia.
Qed.

Lemma set_nth_length {A : Type} (l : list A) :
  forall (i : nat) (x : A), length (set_nth i x l) = length l.
Proof.
  induction l as [|y l IH]; intros [|i] x; cbn; auto.
Qed.

(** Every statement of every call keeps the invariant. *)
Lemma counter_invariant_step (sid : Z) (i : nat) (cfg cfg' : Config) :
  counter_invariant sid cfg -> sched_step i cfg = Some cfg' ->
  counter_invariant sid cfg'.
Proof.
  intros [Hl Hc] H. unfold sched_step in H.
  destruct (nth_error (calls cfg) i) as [p|] eqn:Ep; [|discriminate].
  destruct (nextID_step (shared cfg) p) as [[sh p']|] eqn:Es; [|discriminate].
  injection H as <-. unfold counter_invariant. cbn [shared calls].
  pose proof (count_set_nth holds_lock (calls cfg) i p p' Ep) as Cl.
  pose proof (count_set_nth has_incremented (calls cfg) i p p' Ep) as Ci.
  destruct p; cbn in Es.
  - destruct (mtx (shared cfg)) eqn:M; [discriminate|].
    injection Es as <- <-. cbn in *. split; [lia|].
    rewrite Hc. do 2 f_equal. lia.
  - injection Es as <- <-. cbn in *. split; [lia|].
    rewrite Hc, wrap64_succ. f_equal. lia.
  - injection Es as <- <-. cbn in *.
    destruct (mtx (shared cfg)); split; try lia;
      rewrite Hc; do 2 f_equal; lia.
  - injection Es as <- <-. cbn in *. split.
    + destruct (mtx (shared cfg)); lia.
    + etransitivity; [exact Hc|]. do 2 f_equal. lia.
  - discriminate.
Qed.

Lemma counter_invariant_run (sid : Z) (sched : list nat) :
  forall cfg cfg',
    counter_invariant sid cfg -> run_schedule sched cfg = Some cfg' ->
    counter_invariant sid cfg' /\ length (calls cfg') = length (calls cfg).
Proof.
  induction sched as [|i sched IH]; intros cfg cfg' Hi H; cbn in H.
  - injection H as <-. now split.
  - destruct (sched_step i cfg) as [cfg1|] eqn:E; [|discriminate].
    destruct (IH cfg1 cfg' (counter_invariant_step _ _ _ _ Hi E) H)
      as [Hinv Hlen].
    split; [assumption|]. rewrite Hlen.
    unfold sched_step in E.
    destruct (nth_error (calls cfg) i); [|discriminate].
    destruct (nextID_step (shared cfg) p) as [[sh p']|]; [|discriminate].
    injection E as <-. apply set_nth_length.
Qed.

(** X18: the increment is safe under the lock: however [n] calls are
    interleaved, once all have returned the counter has moved by
    exactly [n] and the lock is free. *)
Lemma nextID_counter_exact (sid : Z) (n : nat) (sched : list nat)
    (cfg : Config) :
  wrap64 sid = sid ->
  run_schedule sched (start_calls sid n) = Some cfg ->
  Forall (fun p => exists id, p = Returned id) (calls cfg) ->
  sessionID (shared cfg) = wrap64 (sid + Z.of_nat n)
  /\ mtx (shared cfg) = false.
Proof.
  intros Hsid Hrun Hall.
  assert (H0 : counter_invariant sid (start_calls sid n)).
  { unfold counter_invariant, start_calls, count. cbn [shared calls mtx
      sessionID].
    assert (E : forall f m, f AtLock = false ->
              filter f (repeat AtLock m) = []).
    { intros f m Hf. induction m as [|m IH]; [reflexivity|].
      cbn. now rewrite Hf. }
    rewrite !E by reflexivity. cbn. now rewrite Z.add_0_r, Hsid. }
  destruct (counter_invariant_run sid sched _ _ H0 Hrun) as [[Hl Hc] Hlen].
  cbn [start_calls calls] in Hlen. rewrite repeat_length in Hlen.
  assert (E : forall l, Forall (fun p => exists id, p = Returned id) l ->
            count has_incremented l = length l /\ count holds_lock l = 0%nat).
  { unfold count. induction 1 as [|p l [id ->] _ [IH1 IH2]];
      [now split|]. cbn. split; [now rewrite IH1|exact IH2]. }
  destruct (E _ Hall) as [E1 E2]. split.
  - now rewrite Hc, E1, Hlen.
  - rewrite E2 in Hl. destruct (mtx (shared cfg)); [discriminate|reflexivity].
Qed.

(** The interleaving of C1 at any value of the counter: the two calls
    return the same identifier. *)
Lemma nextID_duplicate_at (sid : Z) :
  run_schedule [0; 0; 0; 1; 1; 1; 0; 1]%nat (start_calls sid 2)
  = Some {| shared := {| mtx := false;
                         sessionID := wrap64 (wrap64 (sid + 1) + 1) |};
            calls := [Returned (wrap64 (wrap64 (sid + 1) + 1));
                      Returned (wrap64 (wrap64 (sid + 1) + 1))] |}.
Proof. reflexivity. Qed.

(** While a call holds the lock no other call gets past
    [mtx.Lock()]. *)
Lemma nextID_lock_excludes (sh : Shared) :
  mtx sh = true -> nextID_step sh AtLock = None.
Proof. intros H. cbn. now rewrite H. Qed.

(** C1: two goroutines call [nextID], the counter at 0.  The first
    takes the lock, adds one and gives the lock back; before it reads
    [sessionID] for its [return], the second takes the lock, adds one
    and gives it back.  Both calls return 2: the read of [return
    sessionID] is outside the lock. *)
Theorem nextID_concurrent_duplicate :
  run_schedule [0; 0; 0; 1; 1; 1; 0; 1]%nat (start_calls 0 2)
  = Some {| shared := {| mtx := false; sessionID := 2 |};
            calls := [Returned 2; Returned 2] |}.
Proof. reflexivity. Qed.

(** * More of the code *)

(** ** The frame of [Runner] at the start of the child *)

(** Every way through [start]: one case for each call that can fail. *)
Ltac start_paths w c params :=
  unfold start, build_attr, bind, try, check, fail, ret, modify, get,
    call_nextID, call_StartProcess, nextID, frame0;
  cbn [fst snd fr_r fr_sessionID fr_spawn];
  destruct (LookPath w (Path c)) as [?path [?e|]]; cbn [fst snd];
  [|destruct (Render (w_os w) c params) as [?text [?e|]]; cbn [fst snd];
    [|destruct (0 <? length text)%nat;
      (destruct (Pipe_err w) as [?e|];
       [|destruct (Pipe_out w) as [?e|];
         [|destruct (0 <? length (User c))%nat;
           [destruct (negb (Getuid w =? 0));
            [|destruct (user_Lookup w (User c)) as [?u [?e|]]; cbn [fst snd];
              [|destruct (ParseUint w u) as [?uid [?e|]]; cbn [fst snd]]]
           |]]])]];
  cbn [fst snd fr_r fr_sessionID fr_spawn];
  try match goal with
      | |- context [StartProcess w ?p ?a ?t] =>
          destruct (StartProcess w p a t) as [?e|]
      end;
  cbn [fst snd fr_r fr_sessionID fr_spawn].

(** The session counter moves exactly when [Runner] comes to
    [os.StartProcess]; the record carries the identifier from then
    on, and its [SystemTime] is never written. *)
Lemma start_counter (w : World) (sid : Z) (c : Command) (params : list Param) :
  let fr := snd (start w c params (frame0 sid)) in
  SystemTime (fr_r fr) = 0
  /\ ((fr_spawn fr = None /\ fr_sessionID fr = sid /\ SID (fr_r fr) = 0)
      \/ (fr_spawn fr <> None /\ fr_sessionID fr = snd (nextID sid)
          /\ SID (fr_r fr) = fst (nextID sid))).
Proof.
  start_paths w c params;
    (split; [reflexivity|]);
    first [left; repeat split; reflexivity
          |right; repeat split; [discriminate|reflexivity..]].
Qed.

Lemma finisher_keeps (w : World) (c : Command) (r : Runtime) :
  let '(_, r', sent) := finisher w c r in
  (SID r' = SID r /\ SystemTime r' = SystemTime r)
  /\ Forall (fun x => SID x = SID r /\ SystemTime x = SystemTime r) sent.
Proof.
  unfold finisher.
  destruct (snd (read_outOut w)); [repeat constructor|].
  destruct (snd (read_errOut w)); [repeat constructor|].
  destruct (Wait w); [|repeat constructor].
  destruct (Async c); repeat constructor.
Qed.

(** What holds of the frame at the start of the child holds of every
    record delivered. *)
Lemma delivered_keeps (w : World) (sid : Z) (c : Command)
    (params : list Param) :
  let fr := snd (start w c params (frame0 sid)) in
  let res := Runner w sid c params in
  rr_spawn res = fr_spawn fr
  /\ rr_sessionID res = fr_sessionID fr
  /\ Forall (fun r => SID r = SID (fr_r fr)
                      /\ SystemTime r = SystemTime (fr_r fr))
       (delivered res).
Proof.
  cbn zeta. unfold Runner, delivered.
  destruct (start w c params (frame0 sid)) as [[[]|e] fr]; cbn [snd].
  - pose proof (finisher_keeps w c (fr_r fr)) as F.
    destruct (finisher w c (fr_r fr)) as [[out r'] sent].
    destruct F as [F1 F2].
    destruct (Async c); cbn [rr_spawn rr_sessionID rr_sent rr_go];
      repeat split; auto.
    + constructor; [now split|exact F2].
    + constructor; [exact F1|constructor].
  - cbn [rr_spawn rr_sessionID rr_sent rr_go]. repeat split.
    repeat constructor.
Qed.

(** X1: the session counter moves exactly when [Runner] comes to
    [os.StartProcess], whether the child then starts or not; every
    record delivered carries the identifier taken, or 0 when none
    was. *)
Theorem Runner_session_counter (w : World) (sid : Z) (c : Command)
    (params : list Param) :
  (rr_spawn (Runner w sid c params) = None ->
   rr_sessionID (Runner w sid c params) = sid
   /\ Forall (fun r => SID r = 0) (delivered (Runner w sid c params)))
  /\ (rr_spawn (Runner w sid c params) <> None ->
      rr_sessionID (Runner w sid c params) = fst (nextID sid)
      /\ Forall (fun r => SID r = fst (nextID sid))
           (delivered (Runner w sid c params))).
Proof.
  destruct (delivered_keeps w sid c params) as (Es & Ec & Hd).
  destruct (start_counter w sid c params) as [_ H].
  rewrite Es, Ec.
  split; intros Hs; destruct H as [(H1 & H2 & H3)|(H1 & H2 & H3)];
    try contradiction; (split; [assumption|]);
    (eapply Forall_impl; [|exact Hd]); cbn beta; intros r [E _]; congruence.
Qed.

Lemma Runner_session_counter_witness :
  rr_spawn (Runner (machine 1000 (Some (ErrExternal "permission denied"))
                      (exited 0) ([], None))
              7 (command "/bin/ls" "-l") [])
  <> None
  /\ rr_sessionID (Runner (machine 1000 (Some (ErrExternal "permission denied"))
                             (exited 0) ([], None))
                     7 (command "/bin/ls" "-l") [])
     = 8.
Proof.
  assert (H : rr_spawn (Runner (machine 1000
                                  (Some (ErrExternal "permission denied"))
                                  (exited 0) ([], None))
                          7 (command "/bin/ls" "-l") [])
              <> None) by discriminate.
  split; [exact H|].
  apply (proj2 (Runner_session_counter _ _ _ _) H).
Defined.

(** X2: no record that [Runner] delivers has a system time: the field
    [SystemTime] is never written, in either mode and on every
    path. *)
Theorem Runner_never_sets_SystemTime (w : World) (sid : Z) (c : Command)
    (params : list Param) :
  Forall (fun r => SystemTime r = 0) (delivered (Runner w sid c params)).
Proof.
  destruct (delivered_keeps w sid c params) as (_ & _ & Hd).
  destruct (start_counter w sid c params) as [H _].
  eapply Forall_impl; [|exact Hd]. cbn beta. intros r [_ E]. congruence.
Qed.



(** X4: when the executable is not found, or the template does not
    render, nothing is started, the session counter stays, and the one
    record delivered is the zero [Runtime], in both modes. *)
Theorem Runner_fails_before_the_command_line (w : World) (sid : Z)
    (c : Command) (params : list Param) (e : error) :
  snd (LookPath w (Path c)) = Some e
  \/ (snd (LookPath w (Path c)) = None
      /\ snd (Render (w_os w) c params) = Some e) ->
  Runner w sid c params
  = {| rr_outcome := Returns (Some e); rr_sent := [Runtime0];
       rr_spawn := None; rr_go := None; rr_sessionID := sid |}.
Proof.
  intros H. unfold Runner, start, bind, try, fail, ret.
  destruct (LookPath w (Path c)) as [path [e1|]]; cbn [fst snd] in *.
  - destruct H as [H|[H _]]; [|discriminate]. injection H as ->.
    reflexivity.
  - destruct H as [H|[_ H]]; [discriminate|].
    destruct (Render (w_os w) c params) as [text [e2|]]; cbn [fst snd] in *;
      [|discriminate].
    injection H as ->. reflexivity.
Qed.

Lemma Runner_fails_before_the_command_line_witness :
  snd (LookPath (machine 1000 None (exited 0) ([], None))
         (str "/nowhere/ls"))
  = Some (ErrExternal "exec: no such file or directory")
  /\ Run (machine 1000 None (exited 0) ([], None)) 3
       (command "/nowhere/ls" "") []
     = Some (Runtime0,
             Some (ErrExternal "exec: no such file or directory")).
Proof.
  split; [reflexivity|]. unfold Run.
  rewrite (Runner_fails_before_the_command_line
             (machine 1000 None (exited 0) ([], None)) 3
             (command "/nowhere/ls" "") []
             (ErrExternal "exec: no such file or directory"));
    [reflexivity|].
  left. reflexivity.
Defined.

(** ** Running as another user *)

(** X5: a command with a user, run by a caller that is not root,
    starts no child and takes no session identifier; once the path is
    found, the template rendered and the pipes made, the error is
    [ErrMustBeRoot]. *)
Theorem Runner_must_be_root (w : World) (sid : Z) (c : Command)
    (params : list Param) :
  User c <> [] -> Getuid w <> 0 ->
  rr_spawn (Runner w sid c params) = None
  /\ rr_sessionID (Runner w sid c params) = sid
  /\ (exists e, rr_outcome (Runner w sid c params) = Returns (Some e))
  /\ (snd (LookPath w (Path c)) = None ->
      snd (Render (w_os w) c params) = None ->
      Pipe_err w = None -> Pipe_out w = None ->
      rr_outcome (Runner w sid c params) = Returns (Some ErrMustBeRoot)).
Proof.
  intros HU HG.
  assert (EU : (0 <? length (User c))%nat = true)
    by (destruct (User c); [congruence|reflexivity]).
  assert (EG : negb (Getuid w =? 0) = true)
    by (apply negb_true_iff, Z.eqb_neq; assumption).
  unfold Runner, start, build_attr, bind, try, check, fail, ret, modify.
  rewrite EU, EG.
  destruct (LookPath w (Path c)) as [path [e|]]; cbn [fst snd];
    [repeat split; [eexists; reflexivity|discriminate]|].
  destruct (Render (w_os w) c params) as [text [e|]]; cbn [fst snd];
    [repeat split; [eexists; reflexivity|discriminate]|].
  destruct (0 <? length text)%nat;
    (destruct (Pipe_err w) as [e|];
     [repeat split; [eexists; reflexivity|discriminate]|]);
    (destruct (Pipe_out w) as [e|];
     [repeat split; [eexists; reflexivity|discriminate]|]);
    cbn; repeat split; eexists; reflexivity.
Qed.

Lemma Runner_must_be_root_witness :
  User (command_as "/usr/bin/whoami" "" "paul") <> []
  /\ Run (machine 1000 None (exited 0) ([], None)) 0
       (command_as "/usr/bin/whoami" "" "paul") []
     = Some (set_Cmd (str "/usr/bin/whoami") Runtime0, Some ErrMustBeRoot).
Proof.
  assert (HU : User (command_as "/usr/bin/whoami" "" "paul") <> [])
    by discriminate.
  assert (HG : Getuid (machine 1000 None (exited 0) ([], None)) <> 0)
    by discriminate.
  split; [exact HU|].
  destruct (Runner_must_be_root _ 0 _ [] HU HG) as (_ & _ & _ & H).
  unfold Run. rewrite H by reflexivity. reflexivity.
Defined.

Lemma start_attr (w : World) (sid : Z) (c : Command) (params : list Param)
    (path : gostring) (argv : list gostring) (attr : ProcAttr) :
  fr_spawn (snd (start w c params (frame0 sid))) = Some (path, argv, attr) ->
  attr_Dir attr = Dir c
  /\ ((User c = [] /\ attr_Uid attr = None)
      \/ (User c <> [] /\ Getuid w = 0
          /\ snd (user_Lookup w (User c)) = None
          /\ snd (ParseUint w (fst (user_Lookup w (User c)))) = None
          /\ attr_Uid attr
             = Some (fst (ParseUint w (fst (user_Lookup w (User c))))
                     mod 2 ^ 32))).
Proof.
  assert (ED : (if (0 <? length (Dir c))%nat then Dir c else []) = Dir c)
    by (destruct (Dir c); reflexivity).
  unfold start, build_attr, bind, try, check, fail, ret, modify, get,
    call_nextID, call_StartProcess, nextID, frame0.
  rewrite ED.
  destruct (LookPath w (Path c)) as [p [e|]]; cbn [fst snd fr_spawn];
    [discriminate|].
  destruct (Render (w_os w) c params) as [text [e|]]; cbn [fst snd fr_spawn];
    [discriminate|].
  destruct (0 <? length text)%nat;
    (destruct (Pipe_err w) as [e|]; cbn [fst snd fr_spawn]; [discriminate|]);
    (destruct (Pipe_out w) as [e|]; cbn [fst snd fr_spawn]; [discriminate|]);
    (destruct (User c) as [|u0 u] eqn:EU; cbn [length Nat.ltb Nat.leb];
     [|destruct (Z.eqb_spec (Getuid w) 0) as [EG|EG]; cbn [negb];
       [destruct (user_Lookup w (u0 :: u)) as [uu [e|]]; cbn [fst snd fr_spawn];
        [discriminate
        |destruct (ParseUint w uu) as [uid [e|]]; cbn [fst snd fr_spawn];
         [discriminate|]]
       |discriminate]]);
    cbn [fst snd fr_r fr_sessionID fr_spawn];
    match goal with
    | |- context [StartProcess w ?a ?b ?t] =>
        destruct (StartProcess w a b t)
    end;
    cbn [fst snd fr_spawn]; intros E; injection E as <- <- <-;
    (split; [reflexivity|]);
    first [left; split; reflexivity
          |right; repeat split; try reflexivity; try assumption; discriminate].
Qed.

(** X6: the child that [Runner] asks for gets the directory of the
    command; without a user it gets no credential; with a user the
    caller is root, the user was found, and the credential is the
    user id parsed from the entry, as a [uint32]. *)
Theorem Runner_child_attributes (w : World) (sid : Z) (c : Command)
    (params : list Param) (path : gostring) (argv : list gostring)
    (attr : ProcAttr) :
  rr_spawn (Runner w sid c params) = Some (path, argv, attr) ->
  attr_Dir attr = Dir c
  /\ ((User c = [] /\ attr_Uid attr = None)
      \/ (User c <> [] /\ Getuid w = 0
          /\ snd (user_Lookup w (User c)) = None
          /\ snd (ParseUint w (fst (user_Lookup w (User c)))) = None
          /\ attr_Uid attr
             = Some (fst (ParseUint w (fst (user_Lookup w (User c))))
                     mod 2 ^ 32))).
Proof.
  intros H. destruct (delivered_keeps w sid c params) as (Es & _ & _).
  rewrite Es in H. now apply (start_attr w sid c params path argv).
Qed.

Lemma Runner_child_attributes_witness :
  rr_spawn (Runner (machine 0 None (exited 0) ([], None)) 0
              (command_as "/usr/bin/whoami" "" "paul") [])
  = Some (str "/usr/bin/whoami", [str "/usr/bin/whoami"],
          {| attr_Dir := str "/tmp"; attr_Uid := Some 1001 |})
  /\ attr_Dir {| attr_Dir := str "/tmp"; attr_Uid := Some 1001 |}
     = Dir (command_as "/usr/bin/whoami" "" "paul").
Proof.
  assert (H : rr_spawn (Runner (machine 0 None (exited 0) ([], None)) 0
                          (command_as "/usr/bin/whoami" "" "paul") [])
              = Some (str "/usr/bin/whoami", [str "/usr/bin/whoami"],
                      {| attr_Dir := str "/tmp"; attr_Uid := Some 1001 |}))
    by reflexivity.
  split; [exact H|].
  apply (Runner_child_attributes _ _ _ _ _ _ _ H).
Defined.

(** ** The results of a started child *)

Lemma child_starts_frame (w : World) (sid : Z) (c : Command)
    (params : list Param) :
  child_starts w sid c params ->
  exists path text attr,
    LookPath w (Path c) = (path, None)
    /\ Render (w_os w) c params = (text, None)
    /\ start w c params (frame0 sid)
       = (inl tt,
          {| fr_r := set_Started (Now_started w)
                       (set_SID (fst (nextID sid))
                          (set_Cmd (cmdline path text) Runtime0));
             fr_sessionID := snd (nextID sid);
             fr_spawn := Some (path, Fields (cmdline path text), attr) |}).
Proof.
  intros [fr H]. pose proof (start_cases w sid c params) as C.
  rewrite H in C. destruct C as (path & text & attr & EL & ER & _ & ->).
  exists path, text, attr. repeat split; assumption.
Qed.

(** X7: a synchronous [Run] whose child starts and whose pipes are
    read returns the whole record: the identifier taken, the process
    id, exit status and user time of the child, the command line, what
    was read from the two pipes, and the two times. *)
Theorem Run_success_record (w : World) (sid : Z) (c : Command)
    (params : list Param) (path text : gostring) (ps : ProcessState) :
  Async c = false ->
  LookPath w (Path c) = (path, None) ->
  Render (w_os w) c params = (text, None) ->
  child_starts w sid c params ->
  Wait w = Some ps ->
  snd (read_outOut w) = None -> snd (read_errOut w) = None ->
  Run w sid c params
  = Some ({| SID := fst (nextID sid);
             PID := ps_Pid ps;
             RC := ExitStatus (ps_Sys ps);
             Cmd := cmdline path text;
             Stdout := fst (read_outOut w);
             Stderr := fst (read_errOut w);
             SystemTime := 0;
             UserTime := ps_UserTime ps;
             Started := Now_started w;
             Finished := Now_finished w |}, None).
Proof.
  intros HA EL ER Hs HW Ho He.
  destruct (child_starts_frame w sid c params Hs)
    as (path' & text' & attr & EL' & ER' & E).
  rewrite EL in EL'. rewrite ER in ER'.
  injection EL' as <-. injection ER' as <-.
  unfold Run, Runner. rewrite E, HA. unfold finisher.
  rewrite HW, Ho, He. reflexivity.
Qed.

Lemma Run_success_record_witness :
  child_starts (machine 1000 None (exited 0) (str "total 0", None)) 0
    (command "/bin/ls" "-l") []
  /\ Run (machine 1000 None (exited 0) (str "total 0", None)) 0
       (command "/bin/ls" "-l") []
     = Some ({| SID := 1; PID := 4242; RC := 0; Cmd := str "/bin/ls -l";
                Stdout := str "total 0"; Stderr := []; SystemTime := 0;
                UserTime := 5; Started := 100; Finished := 200 |}, None).
Proof.
  assert (H : child_starts (machine 1000 None (exited 0) (str "total 0", None))
                0 (command "/bin/ls" "-l") [])
    by (eexists; reflexivity).
  split; [exact H|].
  apply (Run_success_record (machine 1000 None (exited 0) (str "total 0", None))
           0 (command "/bin/ls" "-l") [] (str "/bin/ls") (str "-l")
           {| ps_Pid := 4242; ps_Sys := Exited 0; ps_UserTime := 5 |});
    try reflexivity.
  exact H.
Defined.

(** X8: a synchronous [Run] panics in one case only: the child has
    started, both pipes are read, and [p.Wait()] had failed.  The
    error of [p.Wait()] itself is never returned. *)
Theorem Run_panics_on_failed_Wait (w : World) (sid : Z) (c : Command)
    (params : list Param) :
  Async c = false ->
  (Run w sid c params = None
   <-> child_starts w sid c params
       /\ snd (read_outOut w) = None /\ snd (read_errOut w) = None
       /\ Wait w = None).
Proof.
  intros HA. unfold Run, Runner, child_starts.
  destruct (start w c params (frame0 sid)) as [[[]|e] fr].
  - rewrite HA. unfold finisher.
    destruct (snd (read_outOut w)) as [e|]; cbn [rr_outcome rr_sent].
    { split; [discriminate|]. intros (_ & H & _). discriminate. }
    destruct (snd (read_errOut w)) as [e|]; cbn [rr_outcome rr_sent].
    { split; [discriminate|]. intros (_ & _ & H & _). discriminate. }
    destruct (Wait w) as [s|]; cbn [rr_outcome rr_sent].
    + split; [discriminate|]. intros (_ & _ & _ & H). discriminate.
    + split; [|reflexivity]. intros _. repeat split. now exists fr.
  - cbn [rr_outcome rr_sent]. split; [discriminate|].
    intros ([fr' H] & _). discriminate.
Qed.

Lemma Run_panics_on_failed_Wait_witness :
  Async (command "/bin/ls" "-l") = false
  /\ Wait (machine 1000 None None ([], None)) = None
  /\ Run (machine 1000 None None ([], None)) 0 (command "/bin/ls" "-l") []
     = None.
Proof.
  split; [reflexivity|]. split; [reflexivity|].
  apply (Run_panics_on_failed_Wait (machine 1000 None None ([], None)) 0
           (command "/bin/ls" "-l") [] eq_refl).
  repeat split. eexists. reflexivity.
Defined.

(** X9: in asynchronous mode an error of reading a pipe is lost:
    [Runner] has returned nil before, the goroutine returns the error
    to nobody and sends nothing, and the one record on the channel is
    the one of the start of the child. *)
Theorem RunAsync_read_error_is_lost (w : World) (sid : Z) (c : Command)
    (params : list Param) (e : error) :
  child_starts w sid (set_Async true c) params ->
  snd (read_outOut w) = Some e
  \/ (snd (read_outOut w) = None /\ snd (read_errOut w) = Some e) ->
  rr_outcome (RunAsync w sid c params) = Returns None
  /\ rr_go (RunAsync w sid c params) = Some (Returns (Some e), [])
  /\ length (delivered (RunAsync w sid c params)) = 1%nat.
Proof.
  intros Hs He.
  destruct (child_starts_frame _ _ _ _ Hs) as (path & text & attr & _ & _ & E).
  unfold RunAsync, Runner, delivered. rewrite E.
  cbn [Async set_Async fr_r]. unfold finisher.
  destruct He as [He|[Ho He]].
  - rewrite He. cbn. repeat split.
  - rewrite Ho, He. cbn. repeat split.
Qed.

Lemma RunAsync_read_error_is_lost_witness :
  child_starts
    (machine 1000 None (exited 0) ([], Some (ErrExternal "read: i/o error")))
    0 (set_Async true (command "/bin/ls" "-l")) []
  /\ rr_outcome
       (RunAsync
          (machine 1000 None (exited 0)
             ([], Some (ErrExternal "read: i/o error")))
          0 (command "/bin/ls" "-l") [])
     = Returns None.
Proof.
  assert (H : child_starts
                (machine 1000 None (exited 0)
                   ([], Some (ErrExternal "read: i/o error")))
                0 (set_Async true (command "/bin/ls" "-l")) [])
    by (eexists; reflexivity).
  split; [exact H|].
  apply (RunAsync_read_error_is_lost _ 0 (command "/bin/ls" "-l") []
           (ErrExternal "read: i/o error") H).
  left. reflexivity.
Defined.

(** ** The earlier [Run] and the one of [cmd.go] *)

(** Every way through the two functions, side by side. *)
Ltac both_paths w c params :=
  unfold Run, Runner, finisher, start, build_attr, Render,
    Earlier.Run, Earlier.run_steps, Earlier.build_attr, Earlier.Render,
    earlier, bind, try, check, fail, ret, modify, get,
    call_nextID, call_StartProcess, nextID, frame0;
  cbn [fst snd fr_r fr_sessionID fr_spawn
       Earlier.Path Earlier.Params Earlier.Dir Earlier.User];
  destruct (LookPath w (Path c)) as [?path [?e|]]; cbn [fst snd];
  [|destruct (optional (w_os w) (substitute (Params c) params))
      as [?text [?e|]]; cbn [fst snd];
    [|destruct (0 <? length text)%nat;
      (destruct (Pipe_err w) as [?e|];
       [|destruct (Pipe_out w) as [?e|];
         [|destruct (0 <? length (User c))%nat;
           [destruct (negb (Getuid w =? 0));
            [|destruct (user_Lookup w (User c)) as [?u [?e|]]; cbn [fst snd];
              [|destruct (ParseUint w u) as [?uid [?e|]]; cbn [fst snd]]]
           |]]])]];
  cbn [fst snd fr_r fr_sessionID fr_spawn Cmd set_Cmd set_SID];
  try match goal with
      | |- context [StartProcess w ?p ?a ?t] =>
          destruct (StartProcess w p a t) as [?e|]
      end;
  cbn [fst snd fr_r fr_sessionID fr_spawn].

(** X10: the earlier [Run] and the synchronous [Run] of [cmd.go]
    return the same error, or panic alike, on every path; they return
    the same record as well when nothing was started, and when the
    child starts and both pipes are read. *)
Theorem Run_agrees_with_earlier (w : World) (sid : Z) (c : Command)
    (params : list Param) :
  Async c = false ->
  option_map snd (fst (Earlier.Run w sid (earlier c) params))
  = option_map snd (Run w sid c params)
  /\ (rr_spawn (Runner w sid c params) = None ->
      Earlier.Run w sid (earlier c) params
      = (Run w sid c params, rr_sessionID (Runner w sid c params)))
  /\ (child_starts w sid c params ->
      snd (read_outOut w) = None -> snd (read_errOut w) = None ->
      Earlier.Run w sid (earlier c) params
      = (Run w sid c params, rr_sessionID (Runner w sid c params))).
Proof.
  intros HA. unfold child_starts.
  both_paths w c params; rewrite ?HA;
    cbn [rr_outcome rr_sent rr_spawn rr_sessionID option_map fst snd];
    try (repeat split; try reflexivity; try discriminate;
         intros [fr H]; discriminate);
    destruct (read_outOut w) as [out [eo|]];
    destruct (read_errOut w) as [err [ee|]];
    destruct (Wait w) as [s|];
    cbn [rr_outcome rr_sent rr_spawn rr_sessionID option_map fst snd];
    repeat split; try reflexivity; try discriminate.
Qed.

Lemma Run_agrees_with_earlier_witness :
  child_starts (machine 1000 None (exited 23) (str "rock", None)) 0
    (command "./failure" "") []
  /\ Earlier.Run (machine 1000 None (exited 23) (str "rock", None)) 0
       (earlier (command "./failure" "")) []
     = (Run (machine 1000 None (exited 23) (str "rock", None)) 0
          (command "./failure" "") [], 1).
Proof.
  assert (H : child_starts (machine 1000 None (exited 23) (str "rock", None))
                0 (command "./failure" "") [])
    by (eexists; reflexivity).
  split; [exact H|].
  apply (proj2 (proj2 (Run_agrees_with_earlier
                         (machine 1000 None (exited 23) (str "rock", None))
                         0 (command "./failure" "") [] eq_refl)) H);
    reflexivity.
Defined.

(** X11: the two differ when [os.StartProcess] fails: the earlier
    [Run] has taken no session identifier then and returns a record
    without one; [Runner] takes the identifier before it starts the
    child, so that the failed start has used one up. *)
Theorem Run_failed_start_takes_identifier (w : World) (sid : Z) (c : Command)
    (params : list Param) :
  Async c = false ->
  rr_spawn (Runner w sid c params) <> None ->
  ~ child_starts w sid c params ->
  exists r0 r e,
    Earlier.Run w sid (earlier c) params = (Some (r0, Some e), sid)
    /\ SID r0 = 0
    /\ Run w sid c params = Some (r, Some e)
    /\ SID r = fst (nextID sid)
    /\ rr_sessionID (Runner w sid c params) = fst (nextID sid).
Proof.
  intros HA. unfold child_starts.
  both_paths w c params; rewrite ?HA;
    cbn [rr_outcome rr_sent rr_spawn rr_sessionID fst snd];
    intros Hs Hn; try contradiction;
    try (exfalso; apply Hn; eexists; reflexivity);
    do 3 eexists; repeat split.
Qed.

Lemma Run_failed_start_takes_identifier_witness :
  ~ child_starts
      (machine 1000 (Some (ErrExternal "permission denied")) (exited 0)
         ([], None))
      0 (command "/etc/passwd" "") []
  /\ exists r0 r e,
       Earlier.Run
         (machine 1000 (Some (ErrExternal "permission denied")) (exited 0)
            ([], None))
         0 (earlier (command "/etc/passwd" "")) []
       = (Some (r0, Some e), 0)
       /\ SID r0 = 0
       /\ Run
            (machine 1000 (Some (ErrExternal "permission denied")) (exited 0)
               ([], None))
            0 (command "/etc/passwd" "") []
          = Some (r, Some e)
       /\ SID r = 1.
Proof.
  assert (Hn : ~ child_starts
                 (machine 1000 (Some (ErrExternal "permission denied"))
                    (exited 0) ([], None))
                 0 (command "/etc/passwd" "") [])
    by (intros [fr H]; discriminate).
  split; [exact Hn|].
  destruct (Run_failed_start_takes_identifier
              (machine 1000 (Some (ErrExternal "permission denied"))
                 (exited 0) ([], None))
              0 (command "/etc/passwd" "") [] eq_refl)
    as (r0 & r & e & E1 & E2 & E3 & E4 & _);
    [discriminate|exact Hn|].
  exists r0, r, e. repeat split; assumption.
Defined.

(** X12: when a pipe cannot be read, [Run] of [cmd.go] returns what
    was read of it before the error, and no exit status; the earlier
    [Run] returns no output at all. *)
Theorem Run_keeps_partial_output (w : World) (sid : Z) (c : Command)
    (params : list Param) (e : error) :
  Async c = false ->
  child_starts w sid c params ->
  snd (read_outOut w) = Some e ->
  exists r r0,
    Run w sid c params = Some (r, Some e)
    /\ Stdout r = fst (read_outOut w) /\ Stderr r = [] /\ RC r = 0
    /\ fst (Earlier.Run w sid (earlier c) params) = Some (r0, Some e)
    /\ Stdout r0 = [] /\ Stderr r0 = [] /\ RC r0 = 0.
Proof.
  intros HA. unfold child_starts.
  both_paths w c params; rewrite ?HA;
    cbn [rr_outcome rr_sent rr_spawn rr_sessionID fst snd];
    intros [fr Hs] He; try discriminate;
    rewrite He; destruct (read_outOut w) as [out eo]; cbn [fst snd] in *;
    do 2 eexists; repeat split.
Qed.

Lemma Run_keeps_partial_output_witness :
  child_starts
    (machine 1000 None (exited 0) (str "tot", Some (ErrExternal "read: EIO")))
    0 (command "/bin/ls" "-l") []
  /\ exists r r0,
       Run (machine 1000 None (exited 0)
              (str "tot", Some (ErrExternal "read: EIO")))
         0 (command "/bin/ls" "-l") []
       = Some (r, Some (ErrExternal "read: EIO"))
       /\ Stdout r = str "tot"
       /\ fst (Earlier.Run
                 (machine 1000 None (exited 0)
                    (str "tot", Some (ErrExternal "read: EIO")))
                 0 (earlier (command "/bin/ls" "-l")) [])
          = Some (r0, Some (ErrExternal "read: EIO"))
       /\ Stdout r0 = [].
Proof.
  assert (H : child_starts
                (machine 1000 None (exited 0)
                   (str "tot", Some (ErrExternal "read: EIO")))
                0 (command "/bin/ls" "-l") [])
    by (eexists; reflexivity).
  split; [exact H|].
  destruct (Run_keeps_partial_output
              (machine 1000 None (exited 0)
                 (str "tot", Some (ErrExternal "read: EIO")))
              0 (command "/bin/ls" "-l") [] (ErrExternal "read: EIO")
              eq_refl H eq_refl)
    as (r & r0 & E1 & E2 & _ & _ & E3 & E4 & _).
  exists r, r0. repeat split; assumption.
Defined.

(** ** What the bracket loop leaves *)

Lemma subseq_refl (s : gostring) : subseq s s.
Proof. induction s; constructor; assumption. Qed.

Lemma subseq_nil_l (s : gostring) : subseq [] s.
Proof. induction s; constructor; assumption. Qed.

Lemma subseq_trans (a b c : gostring) :
  subseq a b -> subseq b c -> subseq a c.
Proof.
  intros H1 H2. revert a H1.
  induction H2 as [|x t s H IH|x t s H IH]; intros a H1.
  - exact H1.
  - inversion H1; subst; constructor; auto.
  - constructor. auto.
Qed.

Lemma subseq_app (a a' b b' : gostring) :
  subseq a a' -> subseq b b' -> subseq (a ++ b) (a' ++ b').
Proof.
  intros Ha Hb. induction Ha; cbn [app]; try constructor; assumption.
Qed.

Lemma subseq_length (t s : gostring) :
  subseq t s -> (length t <= length s)%nat.
Proof. induction 1; cbn [length]; lia. Qed.

Lemma subseq_In (t s : gostring) (c : ascii) :
  subseq t s -> In c t -> In c s.
Proof.
  induction 1 as [|x t s H IH|x t s H IH]; intros Hin; auto.
  - destruct Hin as [->|Hin]; [now left|right; auto].
  - right; auto.
Qed.

(** One turn of the loop leaves characters out and adds none. *)
Lemma pair_turn_subseq (pre frag post : gostring) (b : bool) :
  subseq (if b then pre ++ post else pre ++ frag ++ post)
    (pre ++ "[" :: frag ++ "]" :: post).
Proof.
  destruct b; apply subseq_app; try apply subseq_refl; constructor.
  - change post with ([] ++ post) at 1.
    apply subseq_app; [apply subseq_nil_l|]. constructor. apply subseq_refl.
  - apply subseq_app; [apply subseq_refl|]. constructor. apply subseq_refl.
Qed.

Lemma Index_char_negative (s : gostring) (c : ascii) :
  Index s [c] < 0 -> ~ In c s.
Proof.
  intros H. destruct (Index_char_spec s c) as [[Hn _]|(p & q & _ & _ & E)];
    [assumption|lia].
Qed.

(** Whatever the number of turns allowed, a result of the bracket loop
    is the text with characters taken out. *)
Lemma optional_brackets_deletes :
  forall fuel text t e,
    optional_brackets fuel text = Some (t, e) ->
    subseq t text /\ (e = None -> ~ In "[" t)
    /\ (e = None \/ e = Some ErrSyntaxError).
Proof.
  induction fuel as [|fuel IH]; intros text t e H.
  - destruct (Z.ltb_spec (Index text (str "[")) 0) as [L|L].
    + rewrite optional_brackets_break in H by assumption.
      injection H as <- <-. split; [apply subseq_refl|].
      split; [intros _; now apply Index_char_negative|now left].
    + destruct (Z.ltb_spec (Index text (str "]")) (Index text (str "[")))
        as [M|M].
      * rewrite optional_brackets_syntax in H by auto.
        injection H as <- <-. split; [apply subseq_refl|].
        split; [discriminate|now right].
      * exfalso. cbn [optional_brackets] in H.
        destruct (Z.ltb_spec (Index text (str "[")) 0); [lia|].
        destruct (Z.ltb_spec (Index text (str "]")) 0); [lia|].
        destruct (Z.ltb_spec (Index text (str "]"))
                    (Index text (str "["))); [lia|].
        discriminate.
  - destruct (Z.ltb_spec (Index text (str "[")) 0) as [L|L].
    + rewrite optional_brackets_break in H by assumption.
      injection H as <- <-. split; [apply subseq_refl|].
      split; [intros _; now apply Index_char_negative|now left].
    + destruct (Z.ltb_spec (Index text (str "]")) (Index text (str "[")))
        as [M|M].
      * rewrite optional_brackets_syntax in H by auto.
        injection H as <- <-. split; [apply subseq_refl|].
        split; [discriminate|now right].
      * destruct (leftmost_pair_exists text L M)
          as (pre & frag & post & -> & Hp).
        rewrite optional_brackets_pair in H by assumption.
        destruct (IH _ _ _ H) as (S1 & S2 & S3).
        split; [|now split].
        eapply subseq_trans; [exact S1|apply pair_turn_subseq].
Qed.

(** X13: the bracket loop of [optional] ends within [len(text)]
    turns.  It only takes characters out of the text; when it ends
    without an error no ["["] is left, and its one error is the
    syntax error. *)
Theorem bracket_loop_only_deletes (text : gostring) :
  exists t e,
    optional_brackets (length text) text = Some (t, e)
    /\ subseq t text
    /\ (e = None -> ~ In "[" t)
    /\ (e = None \/ e = Some ErrSyntaxError).
Proof.
  destruct (optional_brackets (length text) text) as [[t e]|] eqn:E.
  - exists t, e. split; [reflexivity|].
    now apply (optional_brackets_deletes (length text)).
  - exfalso. now apply (optional_brackets_total text).
Qed.

(** ** The errors of [Render] *)

Lemma glob_loop_errors (os : OS) (gs : list gostring) :
  forall text t e,
    glob_loop os gs text = (t, Some e) ->
    e = ErrNoSuchFile
    \/ exists g files, In g gs /\ Glob os g = (files, Some e).
Proof.
  induction gs as [|g gs IH]; intros text t e H; [discriminate|].
  rewrite glob_loop_cons in H.
  destruct (Glob os g) as [files [e'|]] eqn:EG; cbn [fst snd] in H.
  - injection H as <- <-. right. exists g, files. split; [now left|assumption].
  - destruct files as [|f files].
    + injection H as <- <-. now left.
    + destruct (IH _ _ _ H) as [->|(g' & fs & Hin & E)]; [now left|].
      right. exists g', fs. split; [now right|assumption].
Qed.

(** X14: an error of [Render] is the syntax error, the incomplete
    parameters, no such file, or the error that [filepath.Glob] gave
    for one of the patterns found in the text; it is no other of the
    package's errors unless the filesystem makes it up. *)
Theorem Render_errors (os : OS) (c : Command) (params : list Param)
    (e : error) :
  snd (Render os c params) = Some e ->
  e = ErrSyntaxError \/ e = ErrIncomplete \/ e = ErrNoSuchFile
  \/ exists g files, Glob os g = (files, Some e)
                     /\ exists a b, g = a ++ "*" :: b
                                    /\ glob_word a /\ glob_word b.
Proof.
  unfold Render, optional.
  destruct (optional_brackets (length (substitute (Params c) params))
              (substitute (Params c) params)) as [[t e0]|] eqn:EB;
    [|exfalso; now apply (optional_brackets_total
                            (substitute (Params c) params))].
  destruct (optional_brackets_deletes _ _ _ _ EB) as (_ & _ & He0).
  destruct He0 as [->| ->].
  - unfold optional_tail.
    destruct (pmatch_MatchString t); cbn [snd].
    + intros H. injection H as <-. auto.
    + destruct (glob_loop os (globs_FindAllString (ExpandEnv os t))
                  (ExpandEnv os t)) as [t' e'] eqn:EG.
      cbn [snd]. intros ->.
      destruct (glob_loop_errors _ _ _ _ _ EG) as [->|(g & fs & Hin & E)];
        [auto|].
      right. right. right. exists g, fs. split; [assumption|].
      apply (globs_scan_shape (ExpandEnv os t) (BeforeStar []));
        [constructor|exact Hin].
  - cbn [snd]. intros H. injection H as <-. auto.
Qed.

Lemma Render_errors_witness :
  snd (Render os_repo (command "/bin/ls" "-l {{WHAT}}")
         [(str "WHAT", str "*.blah")])
  = Some ErrNoSuchFile
  /\ (ErrNoSuchFile = ErrSyntaxError \/ ErrNoSuchFile = ErrIncomplete
      \/ ErrNoSuchFile = ErrNoSuchFile
      \/ exists g files,
           Glob os_repo g = (files, Some ErrNoSuchFile)
           /\ exists a b, g = a ++ "*" :: b /\ glob_word a /\ glob_word b).
Proof.
  assert (H : snd (Render os_repo (command "/bin/ls" "-l {{WHAT}}")
                     [(str "WHAT", str "*.blah")])
              = Some ErrNoSuchFile) by reflexivity.
  split; [exact H|].
  apply (Render_errors _ _ _ _ H).
Defined.

(** ** Parameters without a placeholder *)



(** ** Paths of a glob as arguments *)






(** ** One pattern for each star *)



(** ** More on the session counter *)

Lemma nextID_counter_exact_witness :
  run_schedule [1; 1; 1; 0; 0; 0; 1; 0]%nat (start_calls 40 2)
  = Some {| shared := {| mtx := false; sessionID := 42 |};
            calls := [Returned 42; Returned 42] |}
  /\ sessionID {| mtx := false; sessionID := 42 |} = wrap64 (40 + Z.of_nat 2).
Proof.
  assert (H : run_schedule [1; 1; 1; 0; 0; 0; 1; 0]%nat (start_calls 40 2)
              = Some {| shared := {| mtx := false; sessionID := 42 |};
                        calls := [Returned 42; Returned 42] |})
    by reflexivity.
  split; [exact H|].
  apply (nextID_counter_exact 40 2 _ _ eq_refl H).
  repeat constructor; eexists; reflexivity.
Defined.

Lemma count_at_least_one (f : pc -> bool) (l : list pc) :
  forall (i : nat) (p : pc),
    nth_error l i = Some p -> f p = true -> (1 <= count f l)%nat.
Proof.
  unfold count. induction l as [|q l IH]; intros [|i] p H Hp;
    cbn in H; try discriminate.
  - injection H as ->. cbn [filter]. rewrite Hp. cbn [length]. lia.
  - cbn [filter]. specialize (IH i p H Hp).
    destruct (f q); cbn [length]; lia.
Qed.

Lemma count_le_length (f : pc -> bool) (l : list pc) :
  (count f l <= length l)%nat.
Proof. unfold count. apply filter_length_le. Qed.

Lemma Forall_set_nth {A : Type} (P : A -> Prop) (l : list A) :
  forall (i : nat) (x : A),
    Forall P l -> P x -> Forall P (set_nth i x l).
Proof.
  induction l as [|y l IH]; intros [|i] x Hl Hx; cbn [set_nth];
    inversion Hl; subst; constructor; auto.
Qed.

(** With the counter invariant, every identifier returned so far is a
    value the counter had after an increment. *)
Lemma issued_step (sid : Z) (i : nat) (cfg cfg' : Config) :
  counter_invariant sid cfg ->
  Forall (issued sid cfg) (calls cfg) ->
  sched_step i cfg = Some cfg' ->
  Forall (issued sid cfg') (calls cfg').
Proof.
  intros [Hl Hc] Hall H. unfold sched_step in H.
  destruct (nth_error (calls cfg) i) as [p|] eqn:Ep; [|discriminate].
  destruct (nextID_step (shared cfg) p) as [[sh p']|] eqn:Es; [|discriminate].
  injection H as <-. cbn [calls].
  pose proof (count_set_nth has_incremented (calls cfg) i p p' Ep) as Ci.
  assert (Hmono : has_incremented p = true -> has_incremented p' = true).
  { intros Hp. destruct p; cbn in Hp, Es; try discriminate;
      injection Es as _ <-; reflexivity. }
  assert (Hle : (count has_incremented (calls cfg)
                 <= count has_incremented (set_nth i p' (calls cfg)))%nat).
  { destruct (has_incremented p) eqn:E1.
    - rewrite (Hmono eq_refl) in Ci. lia.
    - destruct (has_incremented p'); lia. }
  assert (Hold : Forall (issued sid
                           {| shared := sh;
                              calls := set_nth i p' (calls cfg) |})
                   (calls cfg)).
  { eapply Forall_impl; [|exact Hall]. intros q Hq.
    destruct q; cbn [issued calls] in *; auto.
    destruct Hq as (k & Hk & ->). exists k. split; [lia|reflexivity]. }
  apply Forall_set_nth; [exact Hold|].
  destruct p; cbn in Es; try discriminate.
  - destruct (mtx (shared cfg)); [discriminate|].
    injection Es as _ <-. exact I.
  - injection Es as _ <-. exact I.
  - injection Es as _ <-. exact I.
  - injection Es as _ <-. cbn [issued calls].
    pose proof (count_at_least_one has_incremented _ _ _ Ep eq_refl) as H1.
    exists (count has_incremented (calls cfg)). split; [lia|exact Hc].
Qed.

Lemma issued_run (sid : Z) (sched : list nat) :
  forall cfg cfg',
    counter_invariant sid cfg ->
    Forall (issued sid cfg) (calls cfg) ->
    run_schedule sched cfg = Some cfg' ->
    Forall (issued sid cfg') (calls cfg').
Proof.
  induction sched as [|i sched IH]; intros cfg cfg' Hi Hall H; cbn in H.
  - now injection H as <-.
  - destruct (sched_step i cfg) as [cfg1|] eqn:E; [|discriminate].
    apply (IH cfg1 cfg'); [| |assumption].
    + now apply (counter_invariant_step sid i cfg).
    + now apply (issued_step sid i cfg).
Qed.

(** X19: whatever the interleaving of [n] calls, from a counter at
    [sid] that does not come to the end of [int64], every identifier
    that a call returns is above [sid] and at most [sid + n]: a call
    may return the identifier of a later call, never one that was not
    given out. *)
Theorem nextID_returns_issued (sid : Z) (n : nat) (sched : list nat)
    (cfg : Config) (id : Z) :
  - 2 ^ 63 <= sid -> sid + Z.of_nat n < 2 ^ 63 ->
  run_schedule sched (start_calls sid n) = Some cfg ->
  In (Returned id) (calls cfg) ->
  sid < id <= sid + Z.of_nat n.
Proof.
  intros Hlo Hhi Hrun Hin.
  assert (Hsid : wrap64 sid = sid) by (apply wrap64_small; lia).
  assert (H0 : counter_invariant sid (start_calls sid n)
               /\ Forall (issued sid (start_calls sid n))
                    (calls (start_calls sid n))).
  { assert (E : forall f m, f AtLock = false ->
              filter f (repeat AtLock m) = []).
    { intros f m Hf. induction m as [|m IH]; [reflexivity|].
      cbn. now rewrite Hf. }
    split.
    - unfold counter_invariant, start_calls, count.
      cbn [shared calls mtx sessionID].
      rewrite !E by reflexivity. cbn. now rewrite Z.add_0_r, Hsid.
    - cbn [start_calls calls]. apply Forall_forall. intros p Hp.
      apply repeat_spec in Hp. subst p. exact I. }
  destruct H0 as [H0 H1].
  pose proof (issued_run sid sched _ _ H0 H1 Hrun) as Hall.
  destruct (counter_invariant_run sid sched _ _ H0 Hrun) as [_ Hlen].
  cbn [start_calls calls] in Hlen. rewrite repeat_length in Hlen.
  rewrite Forall_forall in Hall. specialize (Hall _ Hin).
  destruct Hall as (k & Hk & ->).
  pose proof (count_le_length has_incremented (calls cfg)) as Hc.
  rewrite wrap64_small; lia.
Qed.

Lemma nextID_returns_issued_witness :
  run_schedule [0; 0; 0; 1; 1; 1; 0; 1]%nat (start_calls 0 2)
  = Some {| shared := {| mtx := false; sessionID := 2 |};
            calls := [Returned 2; Returned 2] |}
  /\ 0 < 2 <= 0 + Z.of_nat 2.
Proof.
  assert (H : run_schedule [0; 0; 0; 1; 1; 1; 0; 1]%nat (start_calls 0 2)
              = Some {| shared := {| mtx := false; sessionID := 2 |};
                        calls := [Returned 2; Returned 2] |})
    by reflexivity.
  split; [exact H|].
  apply (nextID_returns_issued 0 2 _ _ 2 ltac:(lia) ltac:(cbn; lia) H).
  now left.
Defined.

Lemma run_schedule_app (a b : list nat) :
  forall cfg,
    run_schedule (a ++ b) cfg
    = match run_schedule a cfg with
      | Some cfg' => run_schedule b cfg'
      | None => None
      end.
Proof.
  induction a as [|i a IH]; intros cfg; [reflexivity|].
  cbn [app run_schedule]. destruct (sched_step i cfg); [apply IH|reflexivity].
Qed.

Lemma nth_error_mid {A : Type} (pre rest : list A) (x : A) :
  nth_error (pre ++ x :: rest) (length pre) = Some x.
Proof. induction pre as [|y pre IH]; [reflexivity|exact IH]. Qed.

Lemma set_nth_mid {A : Type} (pre rest : list A) (x y : A) :
  set_nth (length pre) y (pre ++ x :: rest) = pre ++ y :: rest.
Proof.
  induction pre as [|z pre IH]; [reflexivity|].
  cbn [length app set_nth]. now rewrite IH.
Qed.

Lemma sched_step_mid (pre rest : list pc) (sh sh' : Shared) (p p' : pc) :
  nextID_step sh p = Some (sh', p') ->
  sched_step (length pre) {| shared := sh; calls := pre ++ p :: rest |}
  = Some {| shared := sh'; calls := pre ++ p' :: rest |}.
Proof.
  intros H. unfold sched_step. cbn [calls shared].
  now rewrite nth_error_mid, H, set_nth_mid.
Qed.

(** A call that runs its four statements with the lock free. *)
Lemma one_call_in_turn (pre rest : list pc) (v : Z) :
  run_schedule [length pre; length pre; length pre; length pre]
    {| shared := {| mtx := false; sessionID := v |};
       calls := pre ++ AtLock :: rest |}
  = Some {| shared := {| mtx := false; sessionID := wrap64 (v + 1) |};
            calls := pre ++ Returned (wrap64 (v + 1)) :: rest |}.
Proof.
  cbn [run_schedule].
  rewrite (sched_step_mid pre rest {| mtx := false; sessionID := v |}
             {| mtx := true; sessionID := v |} AtLock AtIncr eq_refl).
  rewrite (sched_step_mid pre rest {| mtx := true; sessionID := v |}
             {| mtx := true; sessionID := wrap64 (v + 1) |}
             AtIncr AtUnlock eq_refl).
  rewrite (sched_step_mid pre rest
             {| mtx := true; sessionID := wrap64 (v + 1) |}
             {| mtx := false; sessionID := wrap64 (v + 1) |}
             AtUnlock AtReturn eq_refl).
  rewrite (sched_step_mid pre rest
             {| mtx := false; sessionID := wrap64 (v + 1) |}
             {| mtx := false; sessionID := wrap64 (v + 1) |}
             AtReturn (Returned (wrap64 (v + 1))) eq_refl).
  reflexivity.
Qed.

Lemma ids_in_turn_length (sid : Z) (k : nat) :
  length (ids_in_turn sid k) = k.
Proof. unfold ids_in_turn. now rewrite length_map, length_seq. Qed.

Lemma ids_in_turn_S (sid : Z) (k : nat) :
  ids_in_turn sid (S k)
  = ids_in_turn sid k ++ [Returned (sid + 1 + Z.of_nat k)].
Proof. unfold ids_in_turn. now rewrite seq_S, map_app. Qed.

Lemma in_turn_from (sid : Z) (m : nat) :
  forall k : nat,
    - 2 ^ 63 <= sid -> sid + Z.of_nat (k + m) < 2 ^ 63 ->
    run_schedule (flat_map (fun i => [i; i; i; i]) (seq k m))
      {| shared := {| mtx := false; sessionID := sid + Z.of_nat k |};
         calls := ids_in_turn sid k ++ repeat AtLock m |}
    = Some {| shared := {| mtx := false;
                           sessionID := sid + Z.of_nat (k + m) |};
              calls := ids_in_turn sid (k + m) |}.
Proof.
  induction m as [|m IH]; intros k Hlo Hhi.
  - cbn [seq flat_map run_schedule repeat].
    now rewrite app_nil_r, Nat.add_0_r.
  - cbn [seq flat_map repeat].
    change ([k; k; k; k] ++ ?l) with ([k; k; k; k] ++ l).
    rewrite run_schedule_app.
    pose proof (one_call_in_turn (ids_in_turn sid k) (repeat AtLock m)
                  (sid + Z.of_nat k)) as H.
    rewrite ids_in_turn_length in H. rewrite H. clear H.
    assert (E : wrap64 (sid + Z.of_nat k + 1) = sid + Z.of_nat (S k))
      by (rewrite wrap64_small; lia).
    rewrite E.
    replace (ids_in_turn sid k ++ Returned (sid + Z.of_nat (S k))
             :: repeat AtLock m)
      with (ids_in_turn sid (S k) ++ repeat AtLock m).
    + rewrite IH by lia.
      now replace (S k + m)%nat with (k + S m)%nat by lia.
    + rewrite ids_in_turn_S, <- app_assoc. cbn [app].
      do 3 f_equal. lia.
Qed.

(** X20: [n] calls that do not overlap return the identifiers
    [sid + 1], ..., [sid + n] in the order of the calls, each one more
    than the one before, as long as the counter does not come to the
    end of [int64]. *)
Theorem nextID_in_turn_increases (sid : Z) (n : nat) :
  - 2 ^ 63 <= sid -> sid + Z.of_nat n < 2 ^ 63 ->
  run_schedule (in_turn n) (start_calls sid n)
  = Some {| shared := {| mtx := false; sessionID := sid + Z.of_nat n |};
            calls := ids_in_turn sid n |}.
Proof.
  intros Hlo Hhi. unfold in_turn, start_calls.
  pose proof (in_turn_from sid n 0 Hlo Hhi) as H.
  cbn [Nat.add ids_in_turn seq map app Z.of_nat] in H.
  rewrite Z.add_0_r in H. exact H.
Qed.

Lemma nextID_in_turn_increases_witness :
  run_schedule (in_turn 3) (start_calls 10 3)
  = Some {| shared := {| mtx := false; sessionID := 13 |};
            calls := [Returned 11; Returned 12; Returned 13] |}.
Proof.
  apply (nextID_in_turn_increases 10 3); cbn; lia.
Defined.

(** X21: the identifier after [sid] is [sid + 1], but for the last
    [int64]: after [2^63 - 1] comes [-2^63], a negative identifier. *)
Theorem nextID_at_the_end_of_int64 (sid : Z) :
  - 2 ^ 63 <= sid < 2 ^ 63 ->
  fst (nextID sid) = (if sid =? 2 ^ 63 - 1 then - 2 ^ 63 else sid + 1)
  /\ - 2 ^ 63 <= fst (nextID sid) < 2 ^ 63.
Proof.
  intros H. cbn [nextID fst].
  destruct (Z.eqb_spec sid (2 ^ 63 - 1)) as [->|Hne].
  - split; [reflexivity|]. cbn. lia.
  - rewrite wrap64_small by lia. split; lia.
Qed.

Lemma nextID_at_the_end_of_int64_witness :
  fst (nextID 9223372036854775807) = -9223372036854775808.
Proof.
  apply (nextID_at_the_end_of_int64 9223372036854775807). cbn. lia.
Defined.
